(** * A verification model of the evopy evolutionary-computation engine

    Shallow embedding of the parts of [src/evopy] that carry the documented
    invariants: individuals and their copies ([individual/base.py]), the NEAT
    innovation tracker ([utils/innovation.py]), NEAT structural mutation
    ([mutator/neural_network/neat.py], [utils/graphs.py]), permutation
    individuals and PMX ([individual/permutation/base.py],
    [crosser/permutation/pmx.py]), populations ([population/base.py]), the
    elite archive ([elite/base.py]), selectors ([selector/base.py]) and the
    single evaluator ([evaluator/single.py]).

    Numeric fitness values (Python floats) are modelled as integers [Z];
    NaN and rounding are not modelled.  Randomness is modelled by passing the
    drawn values as arguments. *)

From Stdlib Require Import ZArith Lia Sorting.Sorted Sorting.Permutation QArith Qround.
From stdpp Require Import base list gmap strings sorting pretty.

(* ================================================================== *)
(** ** Individuals ([individual/base.py]) *)

Module Individual.

Local Open Scope Z_scope.

(** The evaluation triple [(fitness, time, err_eval)]. *)
Record evaluation := mkEval {
  ev_fitness : Z;
  ev_time : Z;
  ev_err : string
}.

(** [BaseIndividual] with its genome [ind_data] (the subclass part). *)
Record individual (G : Type) := mkInd {
  ind_id : Z;
  is_evaluated : bool;
  ind_evaluation : evaluation;
  ind_origin : list string;
  gen_birth : nat;
  survived_gen : nat;
  ind_data : G
}.
Arguments mkInd {G}.
Arguments ind_id {G}.
Arguments is_evaluated {G}.
Arguments ind_evaluation {G}.
Arguments ind_origin {G}.
Arguments gen_birth {G}.
Arguments survived_gen {G}.
Arguments ind_data {G}.

(** The options read by [BaseIndividual]. *)
Record options := mkOptions {
  invalid_fit_value : Z;
  unevaluated_time : Z
}.

Section WithGenome.
Context {G : Type}.

(** The class-level [_id_counter] is threaded as explicit state. *)
Definition id_counter := Z.

(** [set_new_id(new_id)]: [None] stands for Python's [None]. *)
Definition set_new_id (new_id : option Z) (x : individual G) (c : id_counter)
    : individual G * id_counter :=
  match new_id with
  | None => (mkInd c x.(is_evaluated) x.(ind_evaluation) x.(ind_origin)
               x.(gen_birth) x.(survived_gen) x.(ind_data), c + 1)
  | Some v => (mkInd v x.(is_evaluated) x.(ind_evaluation) x.(ind_origin)
               x.(gen_birth) x.(survived_gen) x.(ind_data), c)
  end.

(** [BaseIndividual.__init__]; [g] is the genome the subclass constructor
    draws. *)
Definition init (g : G) (c : id_counter) : individual G * id_counter :=
  (mkInd c false (mkEval 0 0 "") ["void"%string] 0%nat 0%nat g, c + 1).

(** [is_valid]: evaluated and [err_eval == ""]. *)
Definition err_eval (x : individual G) : string :=
  if x.(is_evaluated) then x.(ind_evaluation).(ev_err) else "None"%string.

Definition is_valid (x : individual G) : bool :=
  x.(is_evaluated) && bool_decide (err_eval x = ""%string).

Definition fitness (o : options) (x : individual G) : Z :=
  if is_valid x then x.(ind_evaluation).(ev_fitness) else o.(invalid_fit_value).

Definition eval_time (o : options) (x : individual G) : Z :=
  if x.(is_evaluated) then x.(ind_evaluation).(ev_time) else o.(unevaluated_time).

(** [register_evaluation(fitness, time, err_eval)]. *)
Definition register_evaluation (f t : Z) (err : string) (x : individual G)
    : individual G :=
  mkInd x.(ind_id) true (mkEval f t err) x.(ind_origin)
    x.(gen_birth) x.(survived_gen) x.(ind_data).

(** The data dictionary [get_data()]: [{"origin": ..} | genome]. *)
Record ind_dict := mkDict { dict_origin : list string; dict_genome : G }.

Definition get_data (x : individual G) : ind_dict :=
  mkDict x.(ind_origin) x.(ind_data).

(** [_init(data)]: the base class reads the origin, the subclass the
    genome. *)
Definition init_from (d : ind_dict) (x : individual G) : individual G :=
  mkInd x.(ind_id) x.(is_evaluated) x.(ind_evaluation) d.(dict_origin)
    x.(gen_birth) x.(survived_gen) d.(dict_genome).

Definition set_origin (o : list string) (x : individual G) : individual G :=
  mkInd x.(ind_id) x.(is_evaluated) x.(ind_evaluation) o
    x.(gen_birth) x.(survived_gen) x.(ind_data).

(** [from_data(options, data, origin, set_id=-1)].  The source's guard is
    the assignment expression [if set_id := -1:], which rebinds [set_id] to
    [-1] and tests its truthiness (non-zero). *)
Definition from_data (g0 : G) (d : ind_dict) (origin : list string)
    (set_id : Z) (c : id_counter) : individual G * id_counter :=
  let '(new_ind, c1) := init g0 c in
  let new_ind := init_from d new_ind in
  let new_ind := set_origin origin new_ind in
  let set_id := -1 in
  if negb (Z.eqb set_id 0) then set_new_id (Some set_id) new_ind c1
  else (new_ind, c1).

(** [transfer_eval_data(ind)]. *)
Definition transfer_eval_data (src x : individual G) : individual G :=
  mkInd x.(ind_id) src.(is_evaluated) src.(ind_evaluation) x.(ind_origin)
    src.(gen_birth) src.(survived_gen) x.(ind_data).

(** [copy()]; [g0] is the throw-away genome drawn by the constructor that
    [from_data] calls before [_init] overwrites it. *)
Definition copy (g0 : G) (x : individual G) (c : id_counter)
    : individual G * id_counter :=
  let '(y, c1) := from_data g0 (get_data x) x.(ind_origin) x.(ind_id) c in
  (transfer_eval_data x y, c1).

End WithGenome.
End Individual.

(* ================================================================== *)
(** ** The NEAT innovation tracker ([utils/innovation.py]) *)

Module Innovation.

Local Open Scope Z_scope.

Record tracker := mkTracker {
  connection_ids : gmap (Z * Z) Z;
  split_node_ids : gmap (Z * Z) Z;
  next_node_id : Z;
  next_connection_id : Z
}.

Definition reset (nn nc : Z) : tracker := mkTracker ∅ ∅ nn nc.

Definition sync_node_counter (n : Z) (t : tracker) : tracker :=
  mkTracker t.(connection_ids) t.(split_node_ids)
    (Z.max t.(next_node_id) n) t.(next_connection_id).

Definition sync_connection_counter (n : Z) (t : tracker) : tracker :=
  mkTracker t.(connection_ids) t.(split_node_ids)
    t.(next_node_id) (Z.max t.(next_connection_id) n).

(** [_normalize_key] is [(int(a), int(b))], the identity on integers. *)
Definition normalize_key (a b : Z) : Z * Z := (a, b).

Definition get_connection_id (a b : Z) (t : tracker) : Z * tracker :=
  let key := normalize_key a b in
  let t1 :=
    match t.(connection_ids) !! key with
    | Some _ => t
    | None => mkTracker (<[key := t.(next_connection_id)]> t.(connection_ids))
                t.(split_node_ids) t.(next_node_id) (t.(next_connection_id) + 1)
    end in
  (default 0 (t1.(connection_ids) !! key), t1).

Definition get_split_node_id (a b : Z) (t : tracker) : Z * tracker :=
  let key := normalize_key a b in
  let t1 :=
    match t.(split_node_ids) !! key with
    | Some _ => t
    | None => mkTracker t.(connection_ids)
                (<[key := t.(next_node_id)]> t.(split_node_ids))
                (t.(next_node_id) + 1) t.(next_connection_id)
    end in
  (default 0 (t1.(split_node_ids) !! key), t1).

(** The calls a run makes on the tracker after its [reset]. *)
Inductive op :=
| GetConnectionId (a b : Z)
| GetSplitNodeId (a b : Z)
| SyncNodeCounter (n : Z)
| SyncConnectionCounter (n : Z).

Definition step (o : op) (t : tracker) : tracker :=
  match o with
  | GetConnectionId a b => snd (get_connection_id a b t)
  | GetSplitNodeId a b => snd (get_split_node_id a b t)
  | SyncNodeCounter n => sync_node_counter n t
  | SyncConnectionCounter n => sync_connection_counter n t
  end.

Fixpoint run (os : list op) (t : tracker) : tracker :=
  match os with
  | [] => t
  | o :: os => run os (step o t)
  end.

End Innovation.

(* ================================================================== *)
(** ** NEAT genomes and structural mutation
    ([individual/neural_network/neat.py], [mutator/neural_network/neat.py],
    [utils/graphs.py]) *)

Module Neat.

Local Open Scope Z_scope.

Inductive node_type := Input | Hidden | Output.

Record node_gene := mkNode { node_id : Z; ntype : node_type }.

(** A [ConnectionGene]; its endpoints are [NodeGene]s compared by id, so
    the model keeps the ids. *)
Record connection_gene := mkConn {
  conn_id : Z;
  in_node : Z;
  out_node : Z;
  weight : Z;
  enabled : bool
}.

(** The two Python sets of a [NEATIndividual]; a list gives the iteration
    order of the set.  Genes hash and compare by id. *)
Record genome := mkGenome {
  nodes : list node_gene;
  connections : list connection_gene
}.

Definition has_connections (g : genome) : bool :=
  negb (bool_decide (g.(connections) = [])).

(** [set.add] of a gene whose id is already present keeps the old gene. *)
Definition add_connection (c : connection_gene) (g : genome) : genome :=
  if bool_decide (c.(conn_id) ∈ map conn_id g.(connections)) then g
  else mkGenome g.(nodes) (g.(connections) ++ [c]).

(** Apply [f] to the gene of id [cid] (in-place update of that object). *)
Definition update_conn (cid : Z) (f : connection_gene -> connection_gene)
    (g : genome) : genome :=
  mkGenome g.(nodes)
    (map (fun c => if Z.eqb c.(conn_id) cid then f c else c) g.(connections)).

Definition switch (c : connection_gene) : connection_gene :=
  mkConn c.(conn_id) c.(in_node) c.(out_node) c.(weight) (negb c.(enabled)).

Definition enable (c : connection_gene) : connection_gene :=
  mkConn c.(conn_id) c.(in_node) c.(out_node) c.(weight) true.

(** [creates_cycle(connections, (i, o))]: one [for] pass over the
    connections.  [None] is the early [return True]; otherwise the new
    [visited] set and [num_added]. *)
Fixpoint cc_pass (i : Z) (cs : list (Z * Z)) (visited : list Z) (num_added : nat)
    : option (list Z * nat) :=
  match cs with
  | [] => Some (visited, num_added)
  | (a, b) :: cs =>
      if bool_decide (a ∈ visited) && negb (bool_decide (b ∈ visited)) then
        if Z.eqb b i then None
        else cc_pass i cs (b :: visited) (S num_added)
      else cc_pass i cs visited num_added
  end.

(** The [while True] loop.  Every pass that does not stop adds a target
    node not yet visited, so [length cs + 1] passes always reach one of the
    two [return]s; [fuel] only makes the recursion structural. *)
Fixpoint cc_loop (fuel : nat) (i : Z) (cs : list (Z * Z)) (visited : list Z)
    : bool :=
  match fuel with
  | O => false
  | S fuel =>
      match cc_pass i cs visited 0 with
      | None => true
      | Some (_, O) => false
      | Some (v, S _) => cc_loop fuel i cs v
      end
  end.

Definition creates_cycle (cs : list (Z * Z)) (test : Z * Z) : bool :=
  let '(i, o) := test in
  if Z.eqb i o then true else cc_loop (S (length cs)) i cs [o].

Definition endpoints (c : connection_gene) : Z * Z := (c.(in_node), c.(out_node)).

(** [NEATIndividual._create_connection] + [add_connection], i.e. [link]:
    the id comes from the innovation tracker; [w] is the drawn initial
    weight and [enabled_default] the configured default. *)
Definition link (enabled_default : bool) (w : Z) (a b : Z) (g : genome)
    (t : Innovation.tracker) : genome * Innovation.tracker :=
  let '(cid, t1) := Innovation.get_connection_id a b t in
  (add_connection (mkConn cid a b w enabled_default) g, t1).

(** [NEATMutator._add_connection]: [a] and [b] are the two ids drawn by
    [get_random_node]. *)
Definition mut_add_connection (enabled_default : bool) (w : Z) (a b : Z)
    (g : genome) (t : Innovation.tracker) : bool * genome * Innovation.tracker :=
  if Z.eqb a b then (false, g, t) else
  match list_find (fun c => endpoints c = (a, b)) g.(connections) with
  | Some (_, c) =>
      if negb c.(enabled) then (true, update_conn c.(conn_id) enable g, t)
      else (false, g, t)
  | None =>
      let enabled_connections :=
        map endpoints (filter (fun c => c.(enabled) = true) g.(connections)) in
      if creates_cycle enabled_connections (a, b) then (false, g, t)
      else let '(g1, t1) := link enabled_default w a b g t in (true, g1, t1)
  end.

(** [NEATMutator._toggle_connection]: [k] is the position drawn by
    [get_random_connection]. *)
Definition mut_toggle_connection (k : nat) (g : genome) : bool * genome :=
  if negb (has_connections g) then (false, g) else
  match g.(connections) !! k with
  | Some c => (true, update_conn c.(conn_id) switch g)
  | None => (false, g)
  end.

(** The enabled-connection subgraph and its acyclicity. *)
Definition enabled_edge (g : genome) (a b : Z) : Prop :=
  ∃ c, c ∈ g.(connections) ∧ c.(enabled) = true ∧ c.(in_node) = a ∧ c.(out_node) = b.

Definition acyclic (g : genome) : Prop := ∀ n, ¬ tc (enabled_edge g) n n.

(** The genome of a fresh [NEATIndividual] with one input (id 0) and one
    output (id 1): one enabled connection of weight [0.0], whose id was
    pre-assigned by the tracker. *)
Definition initial_genome : genome :=
  mkGenome [mkNode 0 Input; mkNode 1 Output] [mkConn 0 0 1 0 true].

Definition initial_tracker : Innovation.tracker :=
  snd (Innovation.get_connection_id 0 1 (Innovation.reset 2 0)).

End Neat.

(* ================================================================== *)
(** ** Permutation individuals and PMX
    ([individual/permutation/base.py], [crosser/permutation/pmx.py],
    [crosser/multi_point.py]) *)

Module Permu.

Local Open Scope nat_scope.

(** The numpy array [_permutation] as a list of naturals; [None] is an
    exception raised by the Python code (IndexError, ZeroDivisionError,
    AssertionError). *)
Abbreviation array := (list nat) (only parsing).

(** The invariant checked by [_assert_is_perm]: a bijection onto
    [{0,..,size-1}]. *)
Definition is_perm (size : nat) (a : array) : Prop := a ≡ₚ seq 0 size.

(** [_assert_is_perm]: [np.array_equal(np.sort(a), np.arange(size))]. *)
Definition assert_is_perm (size : nat) (a : array) : bool :=
  bool_decide (merge_sort (≤) a = seq 0 size).

(** [a[lo:hi]] and [a[lo:hi] = v] for non-negative bounds: numpy clamps
    both bounds to the array and an empty range ([hi <= lo]) selects
    nothing. *)
Definition slice (a : array) (lo hi : nat) : array := take (hi - lo) (drop lo a).

Definition slice_assign (a : array) (lo hi : nat) (v : array) : array :=
  take lo a ++ v ++ drop (lo `max` hi) a.

(** [a[i] = x]: IndexError out of range. *)
Definition py_set (a : array) (i : nat) (x : nat) : option array :=
  if bool_decide (i < length a) then Some (<[i:=x]> a) else None.

(** [PermuIndividual.swap(idx1, idx2)]: the right-hand tuple is evaluated
    first, then [a[idx1]] and [a[idx2]] are assigned in that order. *)
Definition swap (a : array) (idx1 idx2 : nat) : option (bool * array) :=
  x2 ← a !! idx2; x1 ← a !! idx1;
  a1 ← py_set a idx1 x2; a2 ← py_set a1 idx2 x1; Some (true, a2).

(** [PermuIndividual.move_element(idx, new_pos)]. *)
Definition move_element (size : nat) (a : array) (idx new_pos : nat)
    : option (bool * array) :=
  if bool_decide (idx = new_pos) then Some (false, a) else
  new_elt ← a !! idx;
  a' ← (if bool_decide (idx < new_pos) then
          if bool_decide (size ≤ new_pos) then
            let a1 := slice_assign a idx (size - 1) (drop (idx + 1) a) in
            x ← a1 !! 0; py_set a1 (length a1 - 1) x
          else Some (slice_assign a idx new_pos (slice a (idx + 1) (new_pos + 1)))
        else
          if bool_decide (new_pos = 0) then
            let a1 := slice_assign a 1 (idx + 1) (take idx a) in
            x ← a1 !! (length a1 - 1); py_set a1 0 x
          else Some (slice_assign a new_pos (idx + 1) (slice a (new_pos - 1) idx)));
  a'' ← py_set a' new_pos new_elt;
  Some (true, a'').

(** [PermuIndividual.move_elements(idx, dec, length, reverse)].  The
    arithmetic is Python's on integers ([Z.modulo] is Python's [%]). *)
Definition move_elements (size : nat) (a : array) (idx dec length : nat)
    (rev : bool) : option (bool * array) :=
  let m := (Z.of_nat size - Z.of_nat length - 1)%Z in
  if Z.eqb m 0 then None else
  let dec := (Z.of_nat dec mod m + 1)%Z in
  if Nat.eqb length 0 || Z.eqb dec 0 then Some (false, a) else
  let dec := Z.to_nat dec in
  let dec_idx_l := (idx + length - size)%nat in
  let permutation_less :=
    drop (idx + length - dec_idx_l) a ++ slice a dec_idx_l idx in
  let permutation_removed :=
    slice a idx (idx + length - dec_idx_l) ++ take dec_idx_l a in
  let permutation_removed :=
    if rev then reverse permutation_removed else permutation_removed in
  let a' := take dec permutation_less ++ permutation_removed ++ drop dec permutation_less in
  if assert_is_perm size a' then Some (true, a') else None.

(** [PermuIndividual.reverse(idx1, idx2)]. *)
Definition reverse_seg (a : array) (idx1 idx2 : nat) : bool * array :=
  (true, slice_assign a idx1 (idx2 + 1) (reverse (slice a idx1 (idx2 + 1)))).

(** [PermuIndividual.shuffle(idx1, idx2)]: [shuffled] is the array drawn
    by [np.random.permutation(a[idx1:idx2+1])]. *)
Definition shuffle (a : array) (idx1 idx2 : nat) (shuffled : array) : bool * array :=
  (true, slice_assign a idx1 (idx2 + 1) shuffled).

(** [indices[permutation] = np.arange(len(permutation))] on
    [indices = np.empty_like(permutation)] (whose initial contents are
    arbitrary; zeros here). *)
Fixpoint fill_indices (perm : array) (k : nat) (indices : array) : option array :=
  match perm with
  | [] => Some indices
  | v :: perm => ind' ← py_set indices v k; fill_indices perm (S k) ind'
  end.

(** The [for] loop of [_cross_points] over the positions [is]; [indices] is
    computed once before the loop and never updated. *)
Fixpoint pmx_loop (n : nat) (indices ind2 : array) (is : list nat) (perm : array)
    : option array :=
  match is with
  | [] => Some perm
  | i :: is =>
      let i := (i `mod` n)%nat in
      pi ← perm !! i; qi ← ind2 !! i;
      if bool_decide (pi ≠ qi) then
        j ← indices !! qi;
        pj ← perm !! j;
        p1 ← py_set perm i pj; p2 ← py_set p1 j pi;
        pmx_loop n indices ind2 is p2
      else pmx_loop n indices ind2 is perm
  end.

(** [PermuCrosserPMX._cross_points(data, ind2, idx1, idx2)]. *)
Definition cross_points (perm ind2 : array) (idx1 idx2 : nat) : option array :=
  let n := length perm in
  if Nat.eqb n 0 then None else
  indices ← fill_indices perm 0 (replicate n 0%nat);
  pmx_loop n indices ind2 (seq idx1 (idx2 - idx1 + (idx1 - idx2) + 1)) perm.

(** [MultiPointCrosser._cross] for PMX: the successive cut pairs. *)
Fixpoint cross_pmx (perm ind2 : array) (cuts : list (nat * nat)) : option array :=
  match cuts with
  | [] => Some perm
  | (i1, i2) :: cuts => p ← cross_points perm ind2 i1 i2; cross_pmx p ind2 cuts
  end.

End Permu.

(** The NEAT trace behind claim C1, from the fresh genome: toggle its only
    connection off, then [_add_connection] draws the output node 1 and the
    input node 0 (the reversed edge is accepted: no enabled path leads back). *)
Definition neat_trace_genome : Neat.genome :=
  let g1 := snd (Neat.mut_toggle_connection 0 Neat.initial_genome) in
  let '(_, g2, _) := Neat.mut_add_connection true 0 1 0 g1 Neat.initial_tracker in
  g2.

(* ================================================================== *)
(** ** Populations ([population/base.py]) *)

Module Population.
Import Individual.

(** [np.argsort] of the score array.  numpy's default sort
    (introsort) orders arrays of at most 16 elements by insertion sort;
    this is that insertion sort on indices, which keeps equal keys in index
    order.  The proofs below only use that the result is a permutation of
    the indices ordered by key. *)
Definition key (keys : list Z) (i : nat) : Z := default 0%Z (keys !! i).

Fixpoint insert_idx (keys : list Z) (i : nat) (l : list nat) : list nat :=
  match l with
  | [] => [i]
  | j :: l' => if Z.leb (key keys j) (key keys i) then j :: insert_idx keys i l'
               else i :: l
  end.

Definition argsort (keys : list Z) : list nat :=
  foldl (fun acc i => insert_idx keys i acc) [] (seq 0 (length keys)).

(** [argsort_scores]: ascending order sorts the scores, descending order
    sorts their negation. *)
Definition argsort_scores (ascending_order : bool) (scores : list Z) : list nat :=
  if ascending_order then argsort scores else argsort (Z.opp <$> scores).

(** [x] is at least as good as [y] under the ordering direction. *)
Definition better_eq (ascending_order : bool) (x y : Z) : Prop :=
  if ascending_order then (x <= y)%Z else (y <= x)%Z.

(** [x] is strictly better than [y] under the ordering direction. *)
Definition strictly_better (ascending_order : bool) (x y : Z) : Prop :=
  if ascending_order then (x < y)%Z else (y < x)%Z.

(** [arr[idx]] / [[sample[i] for i in idx]] for an index array. *)
Definition gather {A} (l : list A) (idx : list nat) : list A := omap (fun i => l !! i) idx.

(** numpy's [searchsorted(v, x)] (side ['left']) on a sorted [v]: the
    first index [i] with [x <= v[i]], or [len(v)]. *)
Fixpoint searchsorted (v : list Z) (x : Z) : nat :=
  match v with
  | [] => 0
  | y :: v => if Z.leb x y then 0 else S (searchsorted v x)
  end.

(** Python's [list.insert(i, x)]: a negative index counts from the end,
    and the index is clamped to [0, len]. *)
Definition py_list_insert {A} (l : list A) (i : Z) (x : A) : list A :=
  let n := Z.of_nat (length l) in
  let i := if (i <? 0)%Z then Z.max 0 (i + n) else Z.min i n in
  take (Z.to_nat i) l ++ x :: drop (Z.to_nat i) l.

Section WithGenome.
Context {G : Type}.

Record population := mkPop {
  pop : list (individual G);
  is_sorted : bool;
  keep_sorted : bool;
  ascending_order : bool;
  init_size : nat;
  immigration_rate : Q;
  immigrated : Z;
  ind_options : options
}.

Definition with_pop (p : population) (l : list (individual G)) (s : bool) : population :=
  mkPop l s p.(keep_sorted) p.(ascending_order) p.(init_size)
    p.(immigration_rate) p.(immigrated) p.(ind_options).

Definition fitness_values (o : options) (sample : list (individual G)) : list Z :=
  fitness o <$> sample.

Definition sort_sample (p : population) (sample : list (individual G)) : list (individual G) :=
  gather sample (argsort_scores p.(ascending_order) (fitness_values p.(ind_options) sample)).

(** [sort()]. *)
Definition sort (p : population) : population := with_pop p (sort_sample p p.(pop)) true.

Definition update_order (p : population) : population :=
  if p.(keep_sorted) then sort p else p.

(** [_rank_of_fitness(fit)]. *)
Definition rank_of_fitness (p : population) (fit : Z) : Z :=
  let fv := fitness_values p.(ind_options) p.(pop) in
  if p.(ascending_order) then Z.of_nat (searchsorted fv fit)
  else (Z.of_nat (length p.(pop)) - Z.of_nat (searchsorted (reverse fv) fit) - 1)%Z.

(** [add_individual(individual)]. *)
Definition add_individual (x : individual G) (p : population) : population :=
  if is_valid x && p.(keep_sorted) then
    if p.(is_sorted) then
      with_pop p (py_list_insert p.(pop) (rank_of_fitness p (fitness p.(ind_options) x)) x)
        p.(is_sorted)
    else sort (with_pop p (p.(pop) ++ [x]) p.(is_sorted))
  else with_pop p (p.(pop) ++ [x]) false.

(** [int(x)] of a non-integral number truncates toward zero. *)
Definition py_int (x : Q) : Z := Z.quot (Qnum x) (Zpos (Qden x)).

(** [individual_type.create(options)]: a fresh unevaluated individual;
    [draw k] is the genome drawn by the [k]-th creation. *)
Fixpoint create_and_add (draw : nat -> G) (k : nat) (n : nat) (p : population)
    (c : id_counter) : population * id_counter :=
  match n with
  | O => (p, c)
  | S n =>
      let '(x, c1) := init (draw k) c in
      create_and_add draw (S k) n (add_individual x p) c1
  end.

(** [migrate()]. *)
Definition migrate (draw : nat -> G) (p : population) (c : id_counter)
    : population * id_counter :=
  let k := py_int (inject_Z (Z.of_nat (length p.(pop))) * p.(immigration_rate)) in
  let p := mkPop p.(pop) p.(is_sorted) p.(keep_sorted) p.(ascending_order)
             p.(init_size) p.(immigration_rate) k p.(ind_options) in
  if (0 <? k)%Z then
    let p := with_pop p p.(pop) false in
    let '(p, c) := create_and_add draw 0 (Z.to_nat k) p c in
    (update_order p, c)
  else (p, c).

End WithGenome.
End Population.

(* ================================================================== *)
(** ** The elite archive ([elite/base.py]) *)

Module Elite.
Import Individual Population.

Section WithGenome.
Context {G : Type}.

Record elite := mkElite {
  elite_inds : list (individual G);
  elite_scores : list Z
}.

Definition empty : elite := mkElite [] [].

(** The list comprehension of [update]: an index below the population
    size copies that individual, any other index reuses the elite member
    at [i - size]; an index out of range raises ([None]).  [g0] is the
    genome drawn by the constructor inside [copy]. *)
Fixpoint pick (g0 : G) (pl el : list (individual G)) (idx : list nat)
    (c : id_counter) : option (list (individual G) * id_counter) :=
  match idx with
  | [] => Some ([], c)
  | i :: idx =>
      '(x, c1) ← (if bool_decide (i < length pl)%nat then
                     y ← pl !! i; Some (copy g0 y c)
                   else y ← el !! (i - length pl)%nat; Some (y, c));
      '(xs, c2) ← pick g0 pl el idx c1;
      Some (x :: xs, c2)
  end.

(** [update(population)] with capacity [elite_size]; returns the sorted
    population as well, since [update] sorts it in place. *)
Definition update (elite_size : nat) (g0 : G) (p : population (G:=G)) (e : elite)
    (c : id_counter) : option (elite * population (G:=G) * id_counter) :=
  let p := sort p in
  let outsiders_scores := fitness_values p.(ind_options) p.(pop) in
  let complete_scores := outsiders_scores ++ e.(elite_scores) in
  let sorted_idx := argsort_scores p.(ascending_order) complete_scores in
  '(inds, c1) ← pick g0 p.(pop) e.(elite_inds) (take elite_size sorted_idx) c;
  Some (mkElite inds (gather complete_scores (take elite_size sorted_idx)), p, c1).

(** A sequence of [update] calls, one per population, from the empty
    elite; the result lists the elite after each call. *)
Fixpoint run (elite_size : nat) (g0 : G) (ps : list (population (G:=G))) (e : elite)
    (c : id_counter) : option (list elite) :=
  match ps with
  | [] => Some []
  | p :: ps =>
      '(e1, _, c1) ← update elite_size g0 p e c;
      es ← run elite_size g0 ps e1 c1;
      Some (e1 :: es)
  end.

End WithGenome.
End Elite.

(* ================================================================== *)
(** ** Selectors ([selector/base.py], single-selection mode) *)

Module Selector.
Import Individual Population.

Record selector := mkSelector {
  selection_ratio : Q;
  allow_invalid : bool;
  allow_copies : bool;
  limit_size : bool;
  keep_best : bool;
  max_single_select_fail : Z;
  pre_selected_set : gset Z
}.

Definition set_pre_selected (s : selector) (ids : gset Z) : selector :=
  mkSelector s.(selection_ratio) s.(allow_invalid) s.(allow_copies) s.(limit_size)
    s.(keep_best) s.(max_single_select_fail) ids.

(** [_compute_selection_set], fixed by the constructor. *)
Definition compute_selection_set (s : selector) : bool :=
  negb s.(allow_invalid) || s.(keep_best).

Section WithGenome.
Context {G : Type}.

(** The location store of Python lists: the caller and [best_preservation]
    refer to lists by location, so a rebinding of the local variable is
    told apart from a mutation of the list it names. *)
Definition heap := list (list (individual G)).

Definition deref (h : heap) (l : nat) : list (individual G) := default [] (h !! l).

(** Python's [min(sample, key=...)] (ascending) or [max(...)]: the first
    extremal element. *)
Fixpoint extrem_by (asc : bool) (key : individual G -> Z) (x : individual G)
    (l : list (individual G)) : individual G :=
  match l with
  | [] => x
  | y :: l =>
      if (if asc then Z.ltb (key y) (key x) else Z.ltb (key x) (key y))
      then extrem_by asc key y l else extrem_by asc key x l
  end.

(** [population.get_best_ind()] ([sample=None], [allow_invalid=False]);
    [None] stands for the raised [IndexError] / [ValueError]. *)
Definition get_best_ind (p : population (G:=G)) : option (individual G) :=
  if p.(is_sorted) then p.(pop) !! 0%nat
  else match p.(pop) with
       | [] => None
       | x :: l =>
           let top := extrem_by p.(ascending_order) (fitness p.(ind_options)) x l in
           if is_valid top then Some top else None
       end.

(** [n_selected] of [_get_selection]. *)
Definition n_selected_of (s : selector) (p : population (G:=G)) : Z :=
  if s.(limit_size) then Qceiling (s.(selection_ratio) * inject_Z (Z.of_nat p.(init_size)))
  else Qceiling (s.(selection_ratio) * inject_Z (Z.of_nat (length p.(pop)))).

(** [_init_selection]. *)
Definition init_selection (s : selector) : selector :=
  if s.(allow_copies) then s else set_pre_selected s ∅.

(** [_valid_single_selection(ind, population)], with its update of
    [_pre_selected_set]. *)
Definition valid_single_selection (s : selector) (ind : individual G) : bool * selector :=
  if negb s.(allow_invalid) && negb (is_valid ind) then (false, s)
  else if negb s.(allow_copies) then
    if bool_decide (ind.(ind_id) ∈ s.(pre_selected_set)) then (false, s)
    else (true, set_pre_selected s ({[ind.(ind_id)]} ∪ s.(pre_selected_set)))
  else (true, s).

(** The inner [while] loop of [single_selection] for slot [idx]: at most
    [fuel] tries; [pick idx t] is the result of the subclass's
    [single_select(idx, population)] at try [t].  [g0] is the genome drawn
    inside [copy]. *)
Fixpoint try_select (pick : nat -> nat -> individual G * bool) (g0 : G) (idx : nat)
    (fuel t : nat) (s : selector) (selected : list (individual G)) (c : id_counter)
    : selector * list (individual G) * id_counter :=
  match fuel with
  | O => (s, selected, c)
  | S fuel =>
      let '(ind, success) := pick idx t in
      let '(ok, s1) := if success then valid_single_selection s ind else (false, s) in
      if ok then
        if s1.(allow_copies) then
          let '(y, c1) := copy g0 ind c in (s1, selected ++ [y], c1)
        else (s1, selected ++ [ind], c)
      else try_select pick g0 idx fuel (S t) s1 selected c
  end.

(** Number of iterations allowed by [while n_test < max and max != -1]. *)
Definition tries (s : selector) : nat :=
  if Z.eqb s.(max_single_select_fail) (-1) then 0 else Z.to_nat s.(max_single_select_fail).

(** [single_selection(population, n_selected)]. *)
Definition single_selection (pick : nat -> nat -> individual G * bool) (g0 : G)
    (s : selector) (n_selected : Z) (c : id_counter)
    : selector * list (individual G) * id_counter :=
  foldl (fun '(s, selected, c) idx => try_select pick g0 idx (tries s) 0 s selected c)
    (s, [], c) (seq 0 (Z.to_nat n_selected)).

(** [_is_best_included(best, pre_selected, population)]; [in] compares
    individuals by id ([__eq__]). *)
Definition is_best_included (s : selector) (best : individual G)
    (pre_selected : list (individual G)) : bool :=
  if compute_selection_set s then bool_decide (best.(ind_id) ∈ s.(pre_selected_set))
  else existsb (fun y => Z.eqb y.(ind_id) best.(ind_id)) pre_selected.

(** [best_preservation(selected, population, n_selected)]: [selected] is
    the location the local variable names; [selected[:-1]] allocates a new
    list and rebinds the local variable to it, [append] mutates the list the
    local variable names.  Returns the store after the call. *)
Definition best_preservation (s : selector) (selected : nat) (h : heap)
    (p : population (G:=G)) (n_selected : Z) : option heap :=
  best ← get_best_ind p;
  if is_best_included s best (deref h selected) then Some h
  else
    let '(selected, h) :=
      if bool_decide (Z.of_nat (length (deref h selected)) = n_selected) && s.(limit_size)
      then (length h, h ++ [take (length (deref h selected) - 1) (deref h selected)])
      else (selected, h) in
    Some (<[selected := deref h selected ++ [best]]> h).

(** [_get_selection(population)] in single-selection mode: the list it
    returns is the one at the caller's location [0]. *)
Definition get_selection (pick : nat -> nat -> individual G * bool) (g0 : G)
    (s : selector) (p : population (G:=G)) (c : id_counter)
    : option (list (individual G) * selector * id_counter) :=
  let n_selected := n_selected_of s p in
  let s := init_selection s in
  let '(s, selected, c) := single_selection pick g0 s n_selected c in
  let h : heap := [selected] in
  if s.(keep_best) then
    h ← best_preservation s 0 h p n_selected;
    Some (deref h 0, s, c)
  else Some (selected, s, c).

End WithGenome.
End Selector.

(* ================================================================== *)
(** ** The single evaluator ([evaluator/single.py]) *)

Module Evaluator.
Import Individual Population.

(** What a call of the evaluation callback does: return a fitness, raise
    [IgnoreException(msg)], or raise any other exception; with the time it
    took ([time() - start]). *)
Inductive outcome :=
| Returns (f : Z)
| RaisesIgnore (msg : string)
| RaisesOther (msg : string).

Section WithGenome.
Context {G : Type}.

(** The loop of [_evaluate_pop]: the individuals are updated in place, so
    when an exception escapes, the ones already visited stay updated; the
    result is the list, the [_evaluated] counter and the escaping
    exception, if any. *)
Fixpoint eval_loop (eval_func : individual G -> outcome * Z) (l : list (individual G))
    (evaluated : Z) : list (individual G) * Z * option string :=
  match l with
  | [] => ([], evaluated, None)
  | x :: l =>
      if x.(is_evaluated) then
        let '(l', n, e) := eval_loop eval_func l evaluated in (x :: l', n, e)
      else
        let evaluated := (evaluated + 1)%Z in
        match eval_func x with
        | (Returns f, t) =>
            let '(l', n, e) := eval_loop eval_func l evaluated in
            (register_evaluation f t "" x :: l', n, e)
        | (RaisesIgnore msg, t) =>
            let '(l', n, e) := eval_loop eval_func l evaluated in
            (register_evaluation 0 t msg x :: l', n, e)
        | (RaisesOther msg, _) => (x :: l, evaluated, Some msg)
        end
  end.

(** One iteration of the loop of [_evaluate_pop] on [x], for a callback
    that does not raise anything but [IgnoreException] on it. *)
Definition eval_one (eval_func : individual G -> outcome * Z) (x : individual G)
    : individual G :=
  if x.(is_evaluated) then x
  else match eval_func x with
       | (Returns f, t) => register_evaluation f t "" x
       | (RaisesIgnore msg, t) => register_evaluation 0 t msg x
       | (RaisesOther _, _) => x
       end.

(** [_evaluate_pop(population)]: [update_order] runs only when the loop
    completes. *)
Definition evaluate_pop (eval_func : individual G -> outcome * Z) (p : population (G:=G))
    : population (G:=G) * Z * option string :=
  let '(l, n, e) := eval_loop eval_func p.(pop) 0 in
  match e with
  | None => (update_order (with_pop p l p.(is_sorted)), n, None)
  | Some msg => (with_pop p l p.(is_sorted), n, Some msg)
  end.

End WithGenome.
End Evaluator.

(* ================================================================== *)
(** ** The other NEAT genome operations and mutations
    ([individual/neural_network/neat.py], [mutator/neural_network/neat.py]) *)

Module NeatOps.
Import Neat.

Local Open Scope Z_scope.

(** [add_node(node)]: [set.add] keeps a node already present with the
    same id. *)
Definition add_node (nd : node_gene) (g : genome) : genome :=
  if bool_decide (nd.(node_id) ∈ map node_id g.(nodes)) then g
  else mkGenome (g.(nodes) ++ [nd]) g.(connections).

(** [_create_connection(in_node, out_node, weight=w, enabled=en)]. *)
Definition create_connection (a b w : Z) (en : bool) (t : Innovation.tracker)
    : connection_gene * Innovation.tracker :=
  let '(cid, t1) := Innovation.get_connection_id a b t in (mkConn cid a b w en, t1).

(** [create_split_node(connection)]: returns the id of the new hidden node. *)
Definition create_split_node (c : connection_gene) (g : genome) (t : Innovation.tracker)
    : Z * genome * Innovation.tracker :=
  let '(nid, t1) := Innovation.get_split_node_id c.(in_node) c.(out_node) t in
  (nid, add_node (mkNode nid Hidden) g, t1).

Definition disable (c : connection_gene) : connection_gene :=
  mkConn c.(conn_id) c.(in_node) c.(out_node) c.(weight) false.

(** [remove_connection(connection)]: [set.remove] of a gene compares by id;
    the gene is always one drawn from the set. *)
Definition remove_connection (c : connection_gene) (g : genome) : genome :=
  mkGenome g.(nodes) (filter (fun d => d.(conn_id) ≠ c.(conn_id)) g.(connections)).

(** [remove_node(node)]: the node and every connection whose [in_node] or
    [out_node] equals it (by id) are removed. *)
Definition remove_node (nd : node_gene) (g : genome) : genome :=
  mkGenome (filter (fun m => m.(node_id) ≠ nd.(node_id)) g.(nodes))
    (filter (fun c => c.(in_node) ≠ nd.(node_id) ∧ c.(out_node) ≠ nd.(node_id))
       g.(connections)).

(** [ConnectionGene.set_weight(weight)]: clamped to the configured range. *)
Definition set_weight (wmin wmax w : Z) (c : connection_gene) : connection_gene :=
  mkConn c.(conn_id) c.(in_node) c.(out_node) (Z.min wmax (Z.max wmin w)) c.(enabled).

(** [NEATMutator._del_connection]: [k] is the position drawn by
    [get_random_connection]. *)
Definition mut_del_connection (k : nat) (g : genome) : bool * genome :=
  if negb (has_connections g) then (false, g) else
  match g.(connections) !! k with
  | Some c => (true, remove_connection c g)
  | None => (false, g)
  end.

(** [NEATMutator._add_node]: [k] is the position drawn by
    [get_random_connection]; the weight [1.0] of the first half is [1]. *)
Definition mut_add_node (k : nat) (g : genome) (t : Innovation.tracker)
    : bool * genome * Innovation.tracker :=
  if negb (has_connections g) then (false, g, t) else
  match g.(connections) !! k with
  | None => (false, g, t)
  | Some c =>
      if negb c.(enabled) then (false, g, t) else
      let original_weight := c.(weight) in
      let g1 := update_conn c.(conn_id) disable g in
      let '(new_node, g2, t1) := create_split_node c g1 t in
      let '(conn1, t2) := create_connection c.(in_node) new_node 1 true t1 in
      let g3 := add_connection conn1 g2 in
      let '(conn2, t3) := create_connection new_node c.(out_node) original_weight true t2 in
      (true, add_connection conn2 g3, t3)
  end.

(** [NEATMutator._del_node]: [k] is the position drawn by
    [get_random_node]; [random.choice] of an empty node set raises
    [IndexError] ([None]). *)
Definition mut_del_node (k : nat) (g : genome) : option (bool * genome) :=
  nd ← g.(nodes) !! k;
  match nd.(ntype) with
  | Hidden => Some (true, remove_node nd g)
  | _ => Some (false, g)
  end.

(** [NEATMutator._mutate_weights]: [draw j] is, for the [j]-th connection
    visited, whether [random.random() < reset_weight_prob] and the normal
    perturbation drawn otherwise. *)
Definition mut_weights (draw : nat -> bool * Z) (wmin wmax : Z) (g : genome)
    : bool * genome :=
  if negb (has_connections g) then (false, g) else
  (true, mkGenome g.(nodes)
           (imap (fun j c => let '(reset, perturb) := draw j in
                             set_weight wmin wmax (if reset then 0 else perturb + c.(weight)) c)
              g.(connections))).

End NeatOps.

(* ================================================================== *)
(** ** More of the population ([population/base.py]) *)

Module PopulationOps.
Import Individual Population Selector.

Section WithGenome.
Context {G : Type}.

(** [BaseIndividual.new_generation()]. *)
Definition new_generation (x : individual G) : individual G :=
  mkInd x.(ind_id) x.(is_evaluated) x.(ind_evaluation) x.(ind_origin)
    x.(gen_birth) (S x.(survived_gen)) x.(ind_data).

(** [update(selection)]; the mean of the selected fitnesses is only
    recorded for reports and is not modelled. *)
Definition update (selection : list (individual G)) (p : population (G:=G))
    : population (G:=G) :=
  sort (with_pop p (new_generation <$> selection) p.(is_sorted)).

(** [init_evaluation()]; [complete_population] is the option of that name
    and [draw k] the genome drawn by the [k]-th creation. *)
Definition init_evaluation (draw : nat -> G) (complete_population : bool)
    (p : population (G:=G)) (c : id_counter) : population (G:=G) * id_counter :=
  if complete_population && bool_decide (length p.(pop) < p.(init_size))%nat then
    let p1 := with_pop p p.(pop) false in
    let '(p2, c2) := create_and_add draw 0 (p.(init_size) - length p.(pop)) p1 c in
    (update_order p2, c2)
  else (p, c).

(** The [for i in range(self.size)] loop of [get_worst_ind] on a sorted
    population: [population[-1 - i]] for the indices [is]. *)
Fixpoint worst_scan (l : list (individual G)) (is : list nat) : option (individual G) :=
  match is with
  | [] => None
  | i :: is =>
      match l !! (length l - 1 - i)%nat with
      | Some x => if is_valid x then Some x else worst_scan l is
      | None => worst_scan l is
      end
  end.

(** [get_worst_ind()] ([sample=None], [allow_invalid=False]); [None] stands
    for the raised [ValueError]. *)
Definition get_worst_ind (p : population (G:=G)) : option (individual G) :=
  let fallback :=
    match p.(pop) with
    | [] => None
    | x :: l =>
        let worst := extrem_by (negb p.(ascending_order)) (fitness p.(ind_options)) x l in
        if is_valid worst then Some worst else None
    end in
  if p.(is_sorted) then
    match worst_scan p.(pop) (seq 0 (length p.(pop))) with
    | Some x => Some x
    | None => fallback
    end
  else fallback.

(** The invariant behind the [_sorted] flag: when it is set, the fitness
    values of the population are in order. *)
Definition sorted_inv (p : population (G:=G)) : Prop :=
  p.(is_sorted) = true ->
  Sorted (better_eq p.(ascending_order)) (fitness_values p.(ind_options) p.(pop)).

End WithGenome.
End PopulationOps.

Module SelInv.
Import Individual Selector.
(** What [single_selection] maintains over its slots, from the selector
    [s0] and counter [c0] it started with, after at most [m] slots. *)
Definition sel_inv {G} (s0 : selector) (c0 : id_counter) (m : nat)
    (st : selector * list (individual G) * id_counter) : Prop :=
  let '(s, sel, c) := st in
  allow_invalid s = allow_invalid s0 ∧ allow_copies s = allow_copies s0 ∧
  max_single_select_fail s = max_single_select_fail s0 ∧
  (length sel <= m)%nat ∧
  (allow_invalid s0 = false -> Forall (fun y => is_valid y = true) sel) ∧
  (allow_copies s0 = false ->
     NoDup (ind_id <$> sel) ∧
     (∀ y, y ∈ sel -> ind_id y ∈ pre_selected_set s ∧ ind_id y ∉ pre_selected_set s0) ∧
     pre_selected_set s0 ⊆ pre_selected_set s ∧ c = c0).
End SelInv.

(* ================================================================== *)
(** ** Shared origin lists ([individual/base.py]) *)

(** The [_origin] attribute is a Python list, shared by reference: this
    model keeps the lists in a store and lets an individual refer to its
    origin list by location, so that [copy] and [has_mutate] can be
    followed on the list objects themselves. *)
Module OriginStore.
Import Individual.

Definition store := list (list string).

Definition deref (h : store) (l : nat) : list string := default [] (h !! l).

(** A new list object with contents [v]. *)
Definition alloc (h : store) (v : list string) : nat * store := (length h, h ++ [v]).

Section WithGenome.
Context {G : Type}.

Record sind := mkSInd {
  s_id : Z;
  s_is_evaluated : bool;
  s_evaluation : evaluation;
  s_origin : nat;
  s_gen_birth : nat;
  s_survived_gen : nat;
  s_data : G
}.

(** [set_origin(origin)]: rebinds [_origin] to the given list. *)
Definition s_set_origin (o : nat) (x : sind) : sind :=
  mkSInd x.(s_id) x.(s_is_evaluated) x.(s_evaluation) o
    x.(s_gen_birth) x.(s_survived_gen) x.(s_data).

(** [set_new_id(new_id)] with a given id. *)
Definition s_set_id (i : Z) (x : sind) : sind :=
  mkSInd i x.(s_is_evaluated) x.(s_evaluation) x.(s_origin)
    x.(s_gen_birth) x.(s_survived_gen) x.(s_data).

(** [BaseIndividual.__init__]: a new id and a new list [["void"]]. *)
Definition s_init (g : G) (c : id_counter) (h : store) : sind * id_counter * store :=
  let '(l, h) := alloc h ["void"%string] in
  (mkSInd c false (mkEval 0 0 "") l 0 0 g, (c + 1)%Z, h).

(** [deepcopy(self.get_data())]: a new list with the contents of
    [_origin], and the genome (a value here). *)
Definition s_get_data_deepcopy (x : sind) (h : store) : (nat * G) * store :=
  let '(l, h) := alloc h (deref h x.(s_origin)) in ((l, x.(s_data)), h).

(** [_init(data)]: [_origin] is bound to [data["origin"]], the subclass
    reads the genome. *)
Definition s_init_from (d : nat * G) (x : sind) : sind :=
  mkSInd x.(s_id) x.(s_is_evaluated) x.(s_evaluation) (fst d)
    x.(s_gen_birth) x.(s_survived_gen) (snd d).

(** [from_data(options, data, origin, set_id)], with the guard
    [if set_id := -1:] as in [Individual.from_data]. *)
Definition s_from_data (g0 : G) (d : nat * G) (origin : nat) (set_id : Z)
    (c : id_counter) (h : store) : sind * id_counter * store :=
  let '(new_ind, c1, h1) := s_init g0 c h in
  let new_ind := s_init_from d new_ind in
  let new_ind := s_set_origin origin new_ind in
  let set_id := (-1)%Z in
  if negb (Z.eqb set_id 0) then (s_set_id set_id new_ind, c1, h1)
  else (new_ind, c1, h1).

(** [transfer_eval_data(ind)]. *)
Definition s_transfer_eval_data (src x : sind) : sind :=
  mkSInd x.(s_id) src.(s_is_evaluated) src.(s_evaluation) x.(s_origin)
    src.(s_gen_birth) src.(s_survived_gen) x.(s_data).

(** [copy()]: [self._origin] itself is passed as the [origin] argument. *)
Definition s_copy (g0 : G) (x : sind) (c : id_counter) (h : store)
    : sind * id_counter * store :=
  let '(d, h1) := s_get_data_deepcopy x h in
  let '(y, c1, h2) := s_from_data g0 d x.(s_origin) x.(s_id) c h1 in
  (s_transfer_eval_data x y, c1, h2).

(** [has_mutate()]: [_origin.append(f"mutation {self._id}")] on the list
    object, then [set_new_id()] and [_is_evaluated = False]. *)
Definition s_has_mutate (x : sind) (c : id_counter) (h : store)
    : sind * id_counter * store :=
  let h := <[x.(s_origin) := deref h x.(s_origin) ++ ["mutation " +:+ pretty x.(s_id)]%string]> h in
  (mkSInd c false x.(s_evaluation) x.(s_origin) x.(s_gen_birth) x.(s_survived_gen) x.(s_data),
   (c + 1)%Z, h).

End WithGenome.
Arguments sind : clear implicits.
End OriginStore.

(* ================================================================== *)
(** ** Concrete runs used by the proofs *)

Module Samples.
Import Individual Population.
Local Open Scope Z_scope.

(** An individual with the given id, evaluated with the given fitness
    and no error (so valid); the genome is irrelevant here. *)
Definition evaluated_ind (i f : Z) : individual unit :=
  mkInd i true (mkEval f 0 "") ["void"] 0 0 tt.

(** An individual never evaluated (so invalid). *)
Definition unevaluated_ind (i : Z) : individual unit :=
  mkInd i false (mkEval 0 0 "") ["void"] 0 0 tt.

Definition default_options : options := mkOptions 0 0.

(** A population with keep_sorted on and the given direction. *)
Definition test_pop (asc : bool) (l : list (individual unit)) (s : bool) : population :=
  mkPop l s true asc (length l) 0 0 default_options.

(** Two generations seen by an elite of capacity 2 (ascending order). *)
Definition elite_pops : list (population (G:=unit)) :=
  [test_pop true [evaluated_ind 0 5; evaluated_ind 1 3; evaluated_ind 2 7] false;
   test_pop true [evaluated_ind 3 4; evaluated_ind 4 6] false].

Definition elite_trace : list (Elite.elite (G:=unit)) :=
  default [] (Elite.run 2 tt elite_pops Elite.empty 10).
(** A sorted population of two valid individuals with immigration rate
    1/2. *)
Definition migrate_pop : population (G:=unit) :=
  mkPop [evaluated_ind 0 3; evaluated_ind 1 5] true true true 2 (1 # 2) 0 default_options.

(** One valid and one never-evaluated individual, ascending order. *)
Definition mixed_pop : population (G:=unit) :=
  test_pop true [evaluated_ind 0 5; unevaluated_ind 1] false.

(** A sorted descending population with fitnesses 5, 3, 1, and a valid
    newcomer of fitness 4. *)
Definition descending_pop : population (G:=unit) :=
  test_pop false [evaluated_ind 0 5; evaluated_ind 1 3; evaluated_ind 2 1] true.

Definition newcomer : individual unit := evaluated_ind 3 4.

(** [mixed_pop] with an invalid-fitness sentinel of 100, worse than
    every valid fitness in ascending order. *)
Definition sentinel_pop : population (G:=unit) :=
  mkPop [evaluated_ind 0 5; unevaluated_ind 1; evaluated_ind 2 7] false true true 3 0 0
    (mkOptions 100 0).

(** A selector with the default options ([allow_invalid=False],
    [allow_copies=True], [limit_size=True], [keep_best=True],
    [max_single_select_fail=10]) and selection ratio 2/3. *)
Definition default_selector : Selector.selector :=
  Selector.mkSelector (2 # 3) false true true true 10 ∅.

(** A sorted ascending population with fitnesses 1, 2, 3 (ids 0, 1, 2). *)
Definition sel_pop : population (G:=unit) :=
  mkPop [evaluated_ind 0 1; evaluated_ind 1 2; evaluated_ind 2 3] true true true 3 0 0
    default_options.

(** The subclass's [single_select] draws individual 1 for slot 0 and
    individual 2 for slot 1. *)
Definition sel_pick (idx t : nat) : individual unit * bool :=
  match idx with
  | O => (evaluated_ind 1 2, true)
  | _ => (evaluated_ind 2 3, true)
  end.

(** Two never-evaluated individuals. *)
Definition eval_pop : population (G:=unit) :=
  test_pop true [unevaluated_ind 0; unevaluated_ind 1] false.

(** A callback raising [IgnoreException("bad")] on individual 0. *)
Definition ignore_cb (x : individual unit) : Evaluator.outcome * Z :=
  if Z.eqb x.(ind_id) 0 then (Evaluator.RaisesIgnore "bad", 3) else (Evaluator.Returns 7, 1).

(** A callback raising another exception on individual 0. *)
Definition boom_cb (x : individual unit) : Evaluator.outcome * Z :=
  if Z.eqb x.(ind_id) 0 then (Evaluator.RaisesOther "boom", 2) else (Evaluator.Returns 7, 1).

End Samples.

(* ================================================================== *)
(** * Proofs *)

(* ------------------------------------------------------------------ *)
(** ** Permutation individuals *)

Module PermuFacts.
Import Permu.
Local Open Scope nat_scope.

Lemma slice_split (a : array) lo hi :
  a = take lo a ++ slice a lo hi ++ drop (lo `max` hi) a.
Proof.
  unfold slice. rewrite <- (take_drop lo a) at 1. f_equal.
  rewrite <- (take_drop (hi - lo) (drop lo a)) at 1. f_equal.
  rewrite drop_drop. f_equal. lia.
Qed.

Lemma slice_assign_perm (a v : array) lo hi :
  v ≡ₚ slice a lo hi -> slice_assign a lo hi v ≡ₚ a.
Proof.
  intros Hv. unfold slice_assign. rewrite Hv, <- slice_split. reflexivity.
Qed.

Lemma is_perm_length N (a : array) : is_perm N a -> length a = N.
Proof. intros H. apply Permutation_length in H. rewrite H. apply length_seq. Qed.

Lemma is_perm_bound N (a : array) i x : is_perm N a -> a !! i = Some x -> x < N.
Proof.
  intros H Hi. apply list_elem_of_lookup_2 in Hi. rewrite H in Hi.
  apply elem_of_seq in Hi. lia.
Qed.

Lemma Sorted_seq s n : Sorted le (seq s n).
Proof.
  revert s. induction n as [|n IH]; intros s; simpl; constructor; [apply IH|].
  destruct n; simpl; constructor. lia.
Qed.

Lemma assert_is_perm_true N (a : array) : is_perm N a -> assert_is_perm N a = true.
Proof.
  intros H. unfold assert_is_perm. apply bool_decide_eq_true.
  apply (Sorted_unique le).
  - apply (Sorted_merge_sort le).
  - apply Sorted_seq.
  - rewrite merge_sort_Permutation. exact H.
Qed.

Lemma swap_perm N (a : array) i j :
  is_perm N a -> i < N -> j < N ->
  ∃ a', swap a i j = Some (true, a') ∧ is_perm N a'.
Proof.
  intros Ha Hi Hj. pose proof (is_perm_length _ _ Ha) as Hl.
  destruct (lookup_lt_is_Some_2 a i) as [xi Hxi]; [lia|].
  destruct (lookup_lt_is_Some_2 a j) as [xj Hxj]; [lia|].
  unfold swap, py_set. rewrite Hxj, Hxi. simpl.
  rewrite bool_decide_eq_true_2 by lia. simpl.
  rewrite bool_decide_eq_true_2 by (rewrite length_insert; lia). simpl.
  eexists; split; [reflexivity|].
  unfold is_perm. rewrite Permutation_insert_swap; eauto.
Qed.

Lemma reverse_seg_perm N (a : array) i j :
  is_perm N a -> is_perm N (reverse_seg a i j).2.
Proof.
  intros Ha. unfold is_perm in *. simpl. rewrite slice_assign_perm; [exact Ha|].
  apply reverse_Permutation.
Qed.

Lemma shuffle_perm N (a s : array) i j :
  is_perm N a -> s ≡ₚ slice a i (j + 1) -> is_perm N (shuffle a i j s).2.
Proof.
  intros Ha Hs. unfold is_perm in *. simpl. rewrite slice_assign_perm; eauto.
Qed.

Lemma py_set_lt (a : array) i x :
  i < length a -> py_set a i x = Some (<[i:=x]> a).
Proof. intros H. unfold py_set. rewrite bool_decide_eq_true_2 by exact H. done. Qed.

Lemma fill_indices_ok n (perm : array) k (ind : array) :
  Forall (fun v => v < length ind) perm -> Forall (fun x => x < n) ind ->
  k + length perm ≤ n ->
  ∃ ind', fill_indices perm k ind = Some ind' ∧ length ind' = length ind ∧
          Forall (fun x => x < n) ind'.
Proof.
  revert k ind. induction perm as [|v perm IH]; intros k ind Hp Hi Hk; simpl.
  - eauto.
  - inversion Hp as [|? ? Hv Hp']; subst. rewrite py_set_lt by exact Hv. simpl.
    destruct (IH (S k) (<[v:=k]> ind)) as (ind' & E & Hl & Hf).
    + rewrite length_insert. exact Hp'.
    + apply Forall_insert; [exact Hi|]. simpl in Hk. lia.
    + simpl in Hk. lia.
    + exists ind'. rewrite length_insert in Hl. eauto.
Qed.

Lemma pmx_loop_ok n (indices ind2 : array) (is : list nat) (perm : array) :
  0 < n -> length indices = n -> Forall (fun x => x < n) indices ->
  is_perm n ind2 -> is_perm n perm ->
  ∃ p', pmx_loop n indices ind2 is perm = Some p' ∧ is_perm n p'.
Proof.
  intros Hn Hli Hfi H2. revert perm.
  induction is as [|i is IH]; intros perm Hp; simpl; [eauto|].
  pose proof (is_perm_length _ _ Hp) as Hlp.
  pose proof (is_perm_length _ _ H2) as Hl2.
  assert (Him : i `mod` n < n) by (apply Nat.mod_upper_bound; lia).
  destruct (lookup_lt_is_Some_2 perm (i `mod` n)) as [pi Hpi]; [lia|].
  destruct (lookup_lt_is_Some_2 ind2 (i `mod` n)) as [qi Hqi]; [lia|].
  rewrite Hpi, Hqi. simpl.
  case_bool_decide; [|apply IH; exact Hp].
  assert (Hq : qi < n) by exact (is_perm_bound _ _ _ _ H2 Hqi).
  destruct (lookup_lt_is_Some_2 indices qi) as [j Hj]; [lia|].
  assert (Hjn : j < n) by exact (Forall_lookup_1 (fun x => x < n) _ _ _ Hfi Hj).
  destruct (lookup_lt_is_Some_2 perm j) as [pj Hpj]; [lia|].
  rewrite Hj. simpl. rewrite Hpj. simpl.
  rewrite py_set_lt by lia. simpl. rewrite py_set_lt by (rewrite length_insert; lia).
  simpl. apply IH. unfold is_perm. rewrite Permutation_insert_swap; eauto.
Qed.

Lemma cross_points_perm N (a ind2 : array) idx1 idx2 :
  0 < N -> is_perm N a -> is_perm N ind2 ->
  ∃ a', cross_points a ind2 idx1 idx2 = Some a' ∧ is_perm N a'.
Proof.
  intros HN Ha H2. pose proof (is_perm_length _ _ Ha) as Hl.
  unfold cross_points. rewrite Hl.
  destruct (Nat.eqb_spec N 0) as [|_]; [lia|].
  destruct (fill_indices_ok N a 0 (replicate N 0)) as (ind & E & Hli & Hfi).
  - apply Forall_forall. intros v Hv. rewrite length_replicate.
    apply list_elem_of_lookup_1 in Hv as [k Hk]. exact (is_perm_bound _ _ _ _ Ha Hk).
  - apply Forall_replicate. exact HN.
  - lia.
  - rewrite E. simpl. rewrite length_replicate in Hli. apply pmx_loop_ok; auto.
Qed.

Lemma cross_pmx_perm N (a ind2 : array) cuts :
  0 < N -> is_perm N a -> is_perm N ind2 ->
  ∃ a', cross_pmx a ind2 cuts = Some a' ∧ is_perm N a'.
Proof.
  intros HN. revert a. induction cuts as [|[i1 i2] cuts IH]; intros a Ha H2; simpl; [eauto|].
  destruct (cross_points_perm N a ind2 i1 i2) as (a' & -> & Ha'); auto. simpl. auto.
Qed.

Lemma take_slice (a : array) d idx :
  d ≤ idx -> take idx a = take d a ++ slice a d idx.
Proof.
  intros H. unfold slice. rewrite take_drop_commute.
  replace (d + (idx - d)) with idx by lia.
  rewrite <- (take_drop d (take idx a)) at 1. rewrite take_take.
  f_equal. f_equal. lia.
Qed.

Lemma move_elements_perm N (a : array) idx dec len rev :
  is_perm N a -> idx < N -> 1 ≤ len -> len + 2 ≤ N ->
  ∃ a', move_elements N a idx dec len rev = Some (true, a') ∧ is_perm N a'.
Proof.
  intros Ha Hidx Hl1 Hl2. unfold move_elements.
  destruct (Z.eqb_spec (Z.of_nat N - Z.of_nat len - 1) 0) as [|_]; [lia|].
  pose proof (Z.mod_pos_bound (Z.of_nat dec) (Z.of_nat N - Z.of_nat len - 1)) as Hmod.
  destruct (Nat.eqb_spec len 0) as [|_]; [lia|].
  destruct (Z.eqb_spec (Z.of_nat dec `mod` (Z.of_nat N - Z.of_nat len - 1) + 1) 0)
    as [|_]; [lia|].
  simpl.
  set (dec' := Z.to_nat _).
  set (d := idx + len - N).
  set (e := idx + len - d).
  set (less := drop e a ++ slice a d idx).
  set (removed := slice a idx e ++ take d a).
  set (removed' := if rev then reverse removed else removed).
  assert (Hsplit : less ++ removed ≡ₚ a).
  { unfold less, removed.
    rewrite (slice_split a idx e) at 5.
    replace (idx `max` e) with e by lia.
    rewrite (take_slice a d idx) by lia.
    rewrite !app_assoc. rewrite (Permutation_app_comm _ (take d a)).
    rewrite <- !app_assoc. apply Permutation_app_head.
    rewrite (Permutation_app_comm (drop e a)).
    rewrite <- !app_assoc. reflexivity. }
  assert (Hres : take dec' less ++ removed' ++ drop dec' less ≡ₚ a).
  { rewrite (Permutation_app_comm removed'), app_assoc, take_drop.
    rewrite <- Hsplit. apply Permutation_app_head.
    unfold removed'. destruct rev; [apply reverse_Permutation|reflexivity]. }
  assert (Hp : is_perm N (take dec' less ++ removed' ++ drop dec' less))
    by (unfold is_perm; rewrite Hres; exact Ha).
  rewrite assert_is_perm_true by exact Hp.
  eexists; split; [reflexivity|exact Hp].
Qed.

Lemma length_slice (a : array) lo hi :
  hi ≤ length a -> length (slice a lo hi) = hi - lo.
Proof. intros H. unfold slice. rewrite length_take, length_drop. lia. Qed.

Lemma insert_slice_assign_hi (a v : array) lo hi y :
  lo ≤ hi -> length v = hi - lo -> hi < length a ->
  <[hi:=y]> (slice_assign a lo hi v) = take lo a ++ v ++ y :: drop (S hi) a.
Proof.
  intros H1 H2 H3. unfold slice_assign.
  replace (lo `max` hi) with hi by lia.
  destruct (lookup_lt_is_Some_2 a hi) as [z Hz]; [lia|].
  rewrite (drop_S a z hi Hz).
  rewrite app_assoc.
  replace hi with (length (take lo a ++ v) + 0) at 1
    by (rewrite length_app, length_take; lia).
  rewrite insert_app_r, <- app_assoc. reflexivity.
Qed.

Lemma slice_pred (a : array) np idx x :
  1 ≤ np -> np ≤ idx -> a !! (np - 1) = Some x ->
  slice a (np - 1) idx = x :: slice a np idx.
Proof.
  intros H1 H2 Hx. unfold slice.
  rewrite (drop_S a x (np - 1) Hx).
  replace (idx - (np - 1)) with (S (idx - np)) by lia.
  replace (S (np - 1)) with np by lia. reflexivity.
Qed.

Lemma move_element_perm N (a : array) idx new_pos :
  is_perm N a -> idx < N -> new_pos < N ->
  ∃ b a', move_element N a idx new_pos = Some (b, a') ∧ is_perm N a'.
Proof.
  intros Ha Hi Hn. pose proof (is_perm_length _ _ Ha) as Hl.
  unfold move_element.
  case_bool_decide as Heq; [eauto|].
  destruct (lookup_lt_is_Some_2 a idx) as [e He]; [lia|]. rewrite He. simpl.
  pose proof (take_drop_middle a idx e He) as Ha_split.
  case_bool_decide as Hlt.
  - (* idx < new_pos *)
    rewrite bool_decide_eq_false_2 by lia. simpl.
    set (V := slice a (idx + 1) (new_pos + 1)).
    assert (HV : length V = new_pos - idx) by (unfold V; rewrite length_slice; lia).
    assert (Hlen : new_pos < length (slice_assign a idx new_pos V)).
    { unfold slice_assign. rewrite !length_app, length_take, length_drop. lia. }
    rewrite py_set_lt by exact Hlen. simpl.
    rewrite insert_slice_assign_hi by lia.
    do 2 eexists; split; [reflexivity|].
    unfold is_perm. transitivity (take idx a ++ e :: drop (S idx) a);
      [|rewrite Ha_split; exact Ha].
    assert (Hd : drop (S idx) a = V ++ drop (S new_pos) a).
    { unfold V, slice. replace (idx + 1) with (S idx) by lia.
      rewrite <- (take_drop (new_pos + 1 - S idx) (drop (S idx) a)) at 1.
      rewrite drop_drop. do 3 f_equal. lia. }
    rewrite Hd. apply Permutation_app_head. symmetry. apply Permutation_middle.
  - case_bool_decide as H0.
    + (* new_pos = 0 *)
      subst new_pos.
      set (a1 := slice_assign a 1 (idx + 1) (take idx a)).
      assert (Hl1 : length a1 = N).
      { unfold a1, slice_assign. rewrite !length_app, !length_take, length_drop. lia. }
      destruct (lookup_lt_is_Some_2 a1 (length a1 - 1)) as [x Hx]; [lia|].
      rewrite Hx. simpl. rewrite py_set_lt by lia. simpl.
      rewrite py_set_lt by (rewrite length_insert; lia). simpl.
      rewrite list_insert_insert_eq.
      do 2 eexists; split; [reflexivity|].
      destruct (lookup_lt_is_Some_2 a 0) as [z Hz]; [lia|].
      unfold a1, slice_assign. rewrite (take_S_r a 0 z Hz). simpl.
      replace (1 `max` (idx + 1)) with (S idx) by lia.
      unfold is_perm. transitivity (take idx a ++ e :: drop (S idx) a);
        [|rewrite Ha_split; exact Ha].
      apply Permutation_middle.
    + (* 0 < new_pos < idx *)
      destruct (lookup_lt_is_Some_2 a (new_pos - 1)) as [z Hz]; [lia|].
      rewrite (slice_pred a new_pos idx z) by (auto; lia). simpl.
      assert (Hlen : new_pos < length (slice_assign a new_pos (idx + 1)
                                 (z :: slice a new_pos idx))).
      { unfold slice_assign. rewrite !length_app, length_take. simpl. lia. }
      rewrite py_set_lt by exact Hlen. simpl.
      do 2 eexists; split; [reflexivity|].
      unfold slice_assign.
      replace new_pos with (length (take new_pos a) + 0) at 1
        by (rewrite length_take; lia).
      rewrite insert_app_r. simpl.
      replace (new_pos `max` (idx + 1)) with (S idx) by lia.
      unfold is_perm. transitivity (take idx a ++ e :: drop (S idx) a);
        [|rewrite Ha_split; exact Ha].
      rewrite (take_slice a new_pos idx) by lia. rewrite <- app_assoc.
      apply Permutation_app_head. apply Permutation_middle.
Qed.

End PermuFacts.

(** Claim C3: on a Permutation individual whose array is a bijection onto
    [{0,..,N-1}], every operator with in-range arguments (swap,
    move_element, move_elements with or without reverse, reverse, shuffle)
    and every PMX crossover step returns (without raising) an array that is
    again a bijection onto [{0,..,N-1}]. *)
Theorem permu_operators_preserve_bijection (N : nat) (a : list nat) :
  Permu.is_perm N a ->
  (∀ i j, (i < N)%nat -> (j < N)%nat ->
     ∃ a', Permu.swap a i j = Some (true, a') ∧ Permu.is_perm N a') ∧
  (∀ idx new_pos, (idx < N)%nat -> (new_pos < N)%nat ->
     ∃ b a', Permu.move_element N a idx new_pos = Some (b, a') ∧ Permu.is_perm N a') ∧
  (∀ idx dec len rev, (idx < N)%nat -> (1 ≤ len)%nat -> (len + 2 ≤ N)%nat ->
     ∃ a', Permu.move_elements N a idx dec len rev = Some (true, a') ∧
           Permu.is_perm N a') ∧
  (∀ i j, Permu.is_perm N (Permu.reverse_seg a i j).2) ∧
  (∀ i j s, s ≡ₚ Permu.slice a i (j + 1) -> Permu.is_perm N (Permu.shuffle a i j s).2) ∧
  (∀ ind2 i1 i2, (0 < N)%nat -> Permu.is_perm N ind2 ->
     ∃ a', Permu.cross_points a ind2 i1 i2 = Some a' ∧ Permu.is_perm N a').
Proof.
  intros Ha. split; [|split; [|split; [|split; [|split]]]].
  - intros. apply PermuFacts.swap_perm; auto.
  - intros. apply PermuFacts.move_element_perm; auto.
  - intros. apply PermuFacts.move_elements_perm; auto.
  - intros. apply PermuFacts.reverse_seg_perm; auto.
  - intros. apply PermuFacts.shuffle_perm; auto.
  - intros. apply PermuFacts.cross_points_perm; auto.
Qed.

Lemma permu_operators_preserve_bijection_witness :
  Permu.is_perm 4 [2; 0; 3; 1] ∧
  ((∀ i j, (i < 4)%nat -> (j < 4)%nat ->
     ∃ a', Permu.swap [2; 0; 3; 1] i j = Some (true, a') ∧ Permu.is_perm 4 a') ∧
   (∀ idx new_pos, (idx < 4)%nat -> (new_pos < 4)%nat ->
     ∃ b a', Permu.move_element 4 [2; 0; 3; 1] idx new_pos = Some (b, a') ∧
             Permu.is_perm 4 a') ∧
   (∀ idx dec len rev, (idx < 4)%nat -> (1 ≤ len)%nat -> (len + 2 ≤ 4)%nat ->
     ∃ a', Permu.move_elements 4 [2; 0; 3; 1] idx dec len rev = Some (true, a') ∧
           Permu.is_perm 4 a') ∧
   (∀ i j, Permu.is_perm 4 (Permu.reverse_seg [2; 0; 3; 1] i j).2) ∧
   (∀ i j s, s ≡ₚ Permu.slice [2; 0; 3; 1] i (j + 1) ->
      Permu.is_perm 4 (Permu.shuffle [2; 0; 3; 1] i j s).2) ∧
   (∀ ind2 i1 i2, (0 < 4)%nat -> Permu.is_perm 4 ind2 ->
     ∃ a', Permu.cross_points [2; 0; 3; 1] ind2 i1 i2 = Some a' ∧ Permu.is_perm 4 a')).
Proof.
  assert (H : Permu.is_perm 4 [2; 0; 3; 1]).
  { unfold Permu.is_perm. apply (bool_decide_unpack _). vm_compute. reflexivity. }
  split; [exact H|]. exact (permu_operators_preserve_bijection 4 [2; 0; 3; 1] H).
Defined.

(* ------------------------------------------------------------------ *)
(** ** Copies of individuals *)

(** Claim C4: [copy()] keeps the evaluation state (evaluated flag and the
    [(fitness, time, err_eval)] triple, hence fitness, evaluation time and
    error text) and the origin list, but the clone's id is always [-1]: the
    guard [if set_id := -1:] of [from_data] overwrites the requested id. *)
Theorem copy_id_is_minus_one {G : Type} (g0 : G) (x : Individual.individual G)
    (c : Individual.id_counter) :
  let y := fst (Individual.copy g0 x c) in
  Individual.ind_id y = (-1)%Z ∧
  Individual.is_evaluated y = Individual.is_evaluated x ∧
  Individual.ind_evaluation y = Individual.ind_evaluation x ∧
  (∀ o, Individual.fitness o y = Individual.fitness o x) ∧
  (∀ o, Individual.eval_time o y = Individual.eval_time o x) ∧
  Individual.err_eval y = Individual.err_eval x ∧
  Individual.ind_origin y = Individual.ind_origin x.
Proof.
  destruct x as [i ev e o gb sg d]. simpl.
  unfold Individual.fitness, Individual.eval_time, Individual.is_valid,
    Individual.err_eval. simpl.
  repeat split; reflexivity.
Qed.

(* ------------------------------------------------------------------ *)
(** ** Innovation tracker *)

Module InnovationFacts.
Import Innovation.

Lemma get_connection_id_present a b t v :
  t.(connection_ids) !! (a, b) = Some v ->
  get_connection_id a b t = (v, t).
Proof. intros H. unfold get_connection_id, normalize_key. rewrite H. simpl. rewrite H. done. Qed.

Lemma get_split_node_id_present a b t v :
  t.(split_node_ids) !! (a, b) = Some v ->
  get_split_node_id a b t = (v, t).
Proof. intros H. unfold get_split_node_id, normalize_key. rewrite H. simpl. rewrite H. done. Qed.

(** Entries are never overwritten or removed within a run. *)
Lemma step_keeps o t k v :
  (t.(connection_ids) !! k = Some v -> (step o t).(connection_ids) !! k = Some v) ∧
  (t.(split_node_ids) !! k = Some v -> (step o t).(split_node_ids) !! k = Some v).
Proof.
  destruct o as [a b|a b|n|n]; simpl; split; intros H; try exact H.
  - unfold get_connection_id, normalize_key. simpl.
    destruct (connection_ids t !! (a, b)) eqn:E; simpl; [exact H|].
    rewrite lookup_insert_ne; [exact H|]. intros <-. congruence.
  - unfold get_connection_id. destruct (connection_ids t !! _); exact H.
  - unfold get_split_node_id. destruct (split_node_ids t !! _); exact H.
  - unfold get_split_node_id, normalize_key. simpl.
    destruct (split_node_ids t !! (a, b)) eqn:E; simpl; [exact H|].
    rewrite lookup_insert_ne; [exact H|]. intros <-. congruence.
Qed.

Lemma run_keeps os t k v :
  (t.(connection_ids) !! k = Some v -> (run os t).(connection_ids) !! k = Some v) ∧
  (t.(split_node_ids) !! k = Some v -> (run os t).(split_node_ids) !! k = Some v).
Proof.
  revert t. induction os as [|o os IH]; intros t; simpl; [auto|].
  destruct (step_keeps o t k v) as [H1 H2]. destruct (IH (step o t)) as [I1 I2].
  split; auto.
Qed.

End InnovationFacts.

(** Claim C6: for a pair [(a, b)] not yet registered in the current run,
    [get_connection_id] returns the current [next_connection_id] and
    increments that counter; any later call with the same pair, after any
    sequence of tracker calls of the run, returns the same id.  The same
    holds for [get_split_node_id] over [next_node_id]. *)
Theorem innovation_ids_allocate_then_stable (a b : Z) (t : Innovation.tracker) :
  (t.(Innovation.connection_ids) !! (a, b) = None ->
   let '(v, t1) := Innovation.get_connection_id a b t in
   v = t.(Innovation.next_connection_id) ∧
   t1.(Innovation.next_connection_id) = (t.(Innovation.next_connection_id) + 1)%Z ∧
   ∀ os, fst (Innovation.get_connection_id a b (Innovation.run os t1)) = v) ∧
  (t.(Innovation.split_node_ids) !! (a, b) = None ->
   let '(v, t1) := Innovation.get_split_node_id a b t in
   v = t.(Innovation.next_node_id) ∧
   t1.(Innovation.next_node_id) = (t.(Innovation.next_node_id) + 1)%Z ∧
   ∀ os, fst (Innovation.get_split_node_id a b (Innovation.run os t1)) = v).
Proof.
  split; intros Hnone.
  - destruct (Innovation.get_connection_id a b t) as [v t1] eqn:E.
    unfold Innovation.get_connection_id, Innovation.normalize_key in E.
    rewrite Hnone in E. simpl in E. rewrite lookup_insert_eq in E.
    injection E as <- <-. cbv beta iota. split; [reflexivity|split; [reflexivity|]].
    intros os. rewrite (InnovationFacts.get_connection_id_present a b _
                          (Innovation.next_connection_id t)); [reflexivity|].
    apply InnovationFacts.run_keeps. simpl. apply lookup_insert_eq.
  - destruct (Innovation.get_split_node_id a b t) as [v t1] eqn:E.
    unfold Innovation.get_split_node_id, Innovation.normalize_key in E.
    rewrite Hnone in E. simpl in E. rewrite lookup_insert_eq in E.
    injection E as <- <-. cbv beta iota. split; [reflexivity|split; [reflexivity|]].
    intros os. rewrite (InnovationFacts.get_split_node_id_present a b _
                          (Innovation.next_node_id t)); [reflexivity|].
    apply InnovationFacts.run_keeps. simpl. apply lookup_insert_eq.
Qed.

Lemma innovation_ids_allocate_then_stable_witness :
  Innovation.connection_ids (Innovation.reset 2 0) !! (0%Z, 1%Z) = None ∧
  Innovation.split_node_ids (Innovation.reset 2 0) !! (0%Z, 1%Z) = None ∧
  ((Innovation.connection_ids (Innovation.reset 2 0) !! (0%Z, 1%Z) = None ->
    let '(v, t1) := Innovation.get_connection_id 0 1 (Innovation.reset 2 0) in
    v = Innovation.next_connection_id (Innovation.reset 2 0) ∧
    Innovation.next_connection_id t1 =
      (Innovation.next_connection_id (Innovation.reset 2 0) + 1)%Z ∧
    ∀ os, fst (Innovation.get_connection_id 0 1 (Innovation.run os t1)) = v) ∧
   (Innovation.split_node_ids (Innovation.reset 2 0) !! (0%Z, 1%Z) = None ->
    let '(v, t1) := Innovation.get_split_node_id 0 1 (Innovation.reset 2 0) in
    v = Innovation.next_node_id (Innovation.reset 2 0) ∧
    Innovation.next_node_id t1 = (Innovation.next_node_id (Innovation.reset 2 0) + 1)%Z ∧
    ∀ os, fst (Innovation.get_split_node_id 0 1 (Innovation.run os t1)) = v)).
Proof.
  split; [reflexivity|split; [reflexivity|]].
  exact (innovation_ids_allocate_then_stable 0 1 (Innovation.reset 2 0)).
Defined.

(* ------------------------------------------------------------------ *)
(** ** NEAT structural mutation *)

Module NeatFacts.
Import Neat.

Lemma neat_trace_genome_eq :
  neat_trace_genome = mkGenome [mkNode 0 Input; mkNode 1 Output]
                        [mkConn 0 0 1 0 false; mkConn 1 1 0 0 true].
Proof. vm_compute. reflexivity. Qed.

Lemma neat_trace_toggled_eq :
  snd (mut_toggle_connection 0 neat_trace_genome) =
    mkGenome [mkNode 0 Input; mkNode 1 Output]
      [mkConn 0 0 1 0 true; mkConn 1 1 0 0 true].
Proof. vm_compute. reflexivity. Qed.

Lemma neat_trace_edges x y :
  enabled_edge neat_trace_genome x y -> x = 1%Z ∧ y = 0%Z.
Proof.
  rewrite neat_trace_genome_eq. intros (c & Hc & He & Hx & Hy). simpl in Hc.
  repeat (apply elem_of_cons in Hc as [-> | Hc]; [simpl in *; try discriminate; lia|]).
  apply elem_of_nil in Hc. contradiction.
Qed.

End NeatFacts.

(** Claim C1 fails for [toggleConnection]: the genome reached from a fresh
    individual by a toggle and an accepted [addConnection] has an acyclic
    enabled subgraph (its only enabled edge is 1 -> 0), and toggling its
    first connection back on re-enables 0 -> 1 without any cycle check,
    giving the cycle 0 -> 1 -> 0. *)
Theorem neat_toggle_creates_cycle :
  Neat.acyclic neat_trace_genome ∧
  ¬ Neat.acyclic (snd (Neat.mut_toggle_connection 0 neat_trace_genome)).
Proof.
  split.
  - intros n Hn.
    assert (Htc : ∀ x y, tc (Neat.enabled_edge neat_trace_genome) x y -> x = 1%Z ∧ y = 0%Z).
    { intros x y H. induction H as [x y Hxy | x y z Hxy _ [Hy _]].
      - apply NeatFacts.neat_trace_edges. exact Hxy.
      - apply NeatFacts.neat_trace_edges in Hxy as [_ Hy0]. lia. }
    apply Htc in Hn as [H1 H0]. lia.
  - rewrite NeatFacts.neat_trace_toggled_eq. intros Hac. apply (Hac 0%Z).
    apply (tc_l _ 0%Z 1%Z 0%Z).
    + exists (Neat.mkConn 0 0 1 0 true). split; [left|]. auto.
    + apply tc_once. exists (Neat.mkConn 1 1 0 0 true).
      split; [right; left|]. auto.
Qed.

(* ------------------------------------------------------------------ *)
(** ** Sorting by score *)

Module SortFacts.
Import Population.
Local Open Scope Z_scope.

Definition R (keys : list Z) (i j : nat) : Prop := key keys i <= key keys j.

Lemma insert_idx_perm keys i l : insert_idx keys i l ≡ₚ i :: l.
Proof.
  induction l as [|j l IH]; simpl; [done|].
  destruct (Z.leb _ _); [|done].
  rewrite IH. apply perm_swap.
Qed.

Lemma insert_idx_hd keys i l x :
  HdRel (R keys) x l -> R keys x i -> HdRel (R keys) x (insert_idx keys i l).
Proof.
  destruct l as [|j l]; simpl; intros H1 H2; [by constructor|].
  destruct (Z.leb _ _); constructor; [by inversion H1|done].
Qed.

Lemma insert_idx_sorted keys i l :
  Sorted (R keys) l -> Sorted (R keys) (insert_idx keys i l).
Proof.
  induction l as [|j l IH]; simpl; intros H; [by repeat constructor|].
  inversion H as [|? ? Hs Hhd]; subst.
  destruct (Z.leb (key keys j) (key keys i)) eqn:E.
  - apply Z.leb_le in E. constructor; [by apply IH|]. by apply insert_idx_hd.
  - apply Z.leb_gt in E. constructor; [done|]. constructor. unfold R. lia.
Qed.

Lemma foldl_insert_perm keys l acc :
  foldl (fun acc i => insert_idx keys i acc) acc l ≡ₚ l ++ acc.
Proof.
  revert acc; induction l as [|i l IH]; intros acc; simpl; [done|].
  rewrite IH, insert_idx_perm. symmetry. apply Permutation_middle.
Qed.

Lemma foldl_insert_sorted keys l acc :
  Sorted (R keys) acc ->
  Sorted (R keys) (foldl (fun acc i => insert_idx keys i acc) acc l).
Proof.
  revert acc; induction l as [|i l IH]; intros acc H; simpl; [done|].
  apply IH, insert_idx_sorted, H.
Qed.

Lemma argsort_perm keys : argsort keys ≡ₚ seq 0 (length keys).
Proof. unfold argsort. by rewrite foldl_insert_perm, app_nil_r. Qed.

Lemma argsort_sorted keys : Sorted (R keys) (argsort keys).
Proof. apply foldl_insert_sorted. constructor. Qed.

Lemma key_opp s i : key (Z.opp <$> s) i = - key s i.
Proof. unfold key. rewrite list_lookup_fmap. by destruct (s !! i). Qed.

Lemma argsort_scores_perm asc s : argsort_scores asc s ≡ₚ seq 0 (length s).
Proof.
  unfold argsort_scores. destruct asc; rewrite argsort_perm; [done|].
  by rewrite length_fmap.
Qed.

Definition Rb (asc : bool) (s : list Z) (i j : nat) : Prop :=
  better_eq asc (key s i) (key s j).

Lemma Sorted_weaken {A} (P Q : A -> A -> Prop) l :
  (forall x y, P x y -> Q x y) -> Sorted P l -> Sorted Q l.
Proof.
  intros HPQ. induction 1 as [|x l Hs IH Hhd]; constructor; [done|].
  destruct Hhd; constructor; auto.
Qed.

Lemma argsort_scores_sorted asc s : Sorted (Rb asc s) (argsort_scores asc s).
Proof.
  unfold argsort_scores, Rb, better_eq. destruct asc.
  - apply argsort_sorted.
  - eapply Sorted_weaken; [|apply argsort_sorted].
    intros i j. unfold R. rewrite !key_opp. lia.
Qed.

Lemma Rb_trans asc s : Relations_1.Transitive (Rb asc s).
Proof. intros i j k. unfold Rb, better_eq. destruct asc; lia. Qed.

Lemma argsort_scores_strongly asc s :
  StronglySorted (Rb asc s) (argsort_scores asc s).
Proof.
  apply Sorted_StronglySorted; [apply Rb_trans|apply argsort_scores_sorted].
Qed.

Lemma argsort_scores_bound asc s :
  Forall (fun i => i < length s)%nat (argsort_scores asc s).
Proof.
  apply Forall_forall. intros i Hi.
  rewrite (elem_of_Permutation_proper _ _ _ (argsort_scores_perm asc s)), elem_of_seq in Hi.
  lia.
Qed.

Lemma gather_cons {A} (l : list A) i idx :
  gather l (i :: idx) =
    match l !! i with Some y => y :: gather l idx | None => gather l idx end.
Proof. done. Qed.

Lemma gather_key (s : list Z) idx :
  Forall (fun i => i < length s)%nat idx -> gather s idx = map (key s) idx.
Proof.
  induction 1 as [|i idx Hi _ IH]; [done|].
  destruct (lookup_lt_is_Some_2 s i Hi) as [y Hy].
  rewrite gather_cons, Hy, IH. simpl. f_equal. unfold key. by rewrite Hy.
Qed.

Lemma Sorted_map_key {A} (P : A -> A -> Prop) (f : nat -> A) l :
  Sorted (fun i j => P (f i) (f j)) l -> Sorted P (map f l).
Proof.
  induction 1 as [|i l Hs IH Hhd]; simpl; constructor; [done|].
  destruct Hhd; simpl; by constructor.
Qed.

Lemma Sorted_take' {A} (P : A -> A -> Prop) n l : Sorted P l -> Sorted P (take n l).
Proof.
  revert n; induction l as [|x l IH]; intros [|n] H; [constructor..|].
  rewrite firstn_cons. inversion H as [|? ? Hs Hhd]; subst.
  apply Sorted_cons; [by apply IH|].
  destruct l as [|y l]; destruct n; simpl; constructor. by inversion Hhd.
Qed.
End SortFacts.

(* ------------------------------------------------------------------ *)
(** ** The elite archive *)

Module EliteFacts.
Import Individual Population Elite SortFacts.

Lemma copy_fitness {G} (g0 : G) x c o : fitness o (fst (copy g0 x c)) = fitness o x.
Proof. destruct x. reflexivity. Qed.

Lemma pick_scores {G} (o : options) (g0 : G) pl el idx c xs c' :
  pick g0 pl el idx c = Some (xs, c') ->
  fitness o <$> xs = gather ((fitness o <$> pl) ++ (fitness o <$> el)) idx.
Proof.
  revert c xs. induction idx as [|i idx IH]; intros c xs H.
  - cbn -[copy] in H. by injection H as <- <-.
  - cbn -[copy] in H. rewrite gather_cons. case_bool_decide as Hi.
    + destruct (pl !! i) as [y|] eqn:Hy; [|discriminate]. cbn -[copy] in H.
      destruct (copy g0 y c) as [x c1] eqn:Ec. cbn -[copy] in H.
      destruct (pick g0 pl el idx c1) as [[xs' c2]|] eqn:Ep; [|discriminate].
      cbn -[copy] in H. injection H as <- <-.
      rewrite lookup_app_l by (rewrite length_fmap; lia).
      rewrite list_lookup_fmap, Hy, fmap_cons, (IH _ _ Ep). cbv beta iota. f_equal.
      pose proof (copy_fitness g0 y c o) as Hf. by rewrite Ec in Hf.
    + destruct (el !! (i - length pl)%nat) as [y|] eqn:Hy; [|discriminate]. cbn -[copy] in H.
      destruct (pick g0 pl el idx c) as [[xs' c2]|] eqn:Ep; [|discriminate].
      cbn -[copy] in H. injection H as <- <-.
      rewrite lookup_app_r by (rewrite length_fmap; lia).
      rewrite length_fmap, list_lookup_fmap, Hy, fmap_cons, (IH _ _ Ep). done.
Qed.

(** What holds of every elite produced by [update]. *)
Definition elite_inv {G} (K : nat) (asc : bool) (o : options) (e : elite (G:=G)) : Prop :=
  (length (elite_inds e) <= K)%nat ∧
  elite_scores e = fitness o <$> elite_inds e ∧
  Sorted (better_eq asc) (elite_scores e).

Definition no_regress (asc : bool) (old new : list Z) : Prop :=
  ∀ b, head old = Some b -> ∃ b', head new = Some b' ∧ better_eq asc b' b.

Lemma better_eq_refl asc x : better_eq asc x x.
Proof. unfold better_eq. destruct asc; lia. Qed.

Lemma update_inv {G} K (g0 : G) p e c e' p' c' asc o :
  ascending_order p = asc -> ind_options p = o ->
  elite_inv K asc o e ->
  update K g0 p e c = Some (e', p', c') ->
  elite_inv K asc o e' ∧ no_regress asc (elite_scores e) (elite_scores e').
Proof.
  intros Hasc Ho [HlenK [Hsc _]] Hu. unfold update in Hu.
  set (p1 := sort p) in Hu.
  assert (Hasc1 : ascending_order p1 = asc) by (subst p1; exact Hasc).
  assert (Ho1 : ind_options p1 = o) by (subst p1; exact Ho).
  rewrite Hasc1, Ho1 in Hu. unfold fitness_values in Hu.
  set (complete := (fitness o <$> pop p1) ++ elite_scores e) in Hu.
  set (idx := argsort_scores asc complete) in Hu.
  destruct (pick g0 (pop p1) (elite_inds e) (take K idx) c) as [[inds c1]|] eqn:Ep;
    [|by cbn in Hu].
  simpl in Hu. injection Hu as <- _ _. simpl.
  pose proof (argsort_scores_bound asc complete) as Hb. fold idx in Hb.
  assert (Hg : gather complete (take K idx) = map (key complete) (take K idx)).
  { apply gather_key. by apply Forall_take. }
  pose proof (pick_scores o _ _ _ _ _ _ _ Ep) as Hps.
  rewrite <- Hsc in Hps. fold complete in Hps.
  unfold elite_inv, no_regress. cbn [elite_inds elite_scores].
  split; [split; [|split]|].
  - pose proof (f_equal length Hps) as Hl.
    rewrite length_fmap, Hg, length_map, length_take in Hl. lia.
  - done.
  - rewrite Hg. apply (Sorted_map_key (better_eq asc) (key complete)).
    apply Sorted_take'. apply argsort_scores_sorted.
  - intros b Hb0. rewrite Hg.
    destruct (elite_scores e) as [|b0 rest] eqn:He; [discriminate|].
    simpl in Hb0. injection Hb0 as ->.
    assert (Hk : complete !! length (pop p1) = Some b).
    { subst complete. rewrite lookup_app_r by (rewrite length_fmap; lia).
      by rewrite length_fmap, Nat.sub_diag. }
    assert (Hin : length (pop p1) ∈ idx).
    { subst idx. rewrite (elem_of_Permutation_proper _ _ _ (argsort_scores_perm asc complete)).
      apply elem_of_seq. apply lookup_lt_Some in Hk. lia. }
    assert (HK : (1 <= K)%nat).
    { apply (f_equal length) in Hsc.
      rewrite length_fmap in Hsc. simpl in Hsc. lia. }
    pose proof (argsort_scores_strongly asc complete) as Hs. fold idx in Hs.
    destruct idx as [|h idx'] eqn:Hidx; [by apply elem_of_nil in Hin|].
    destruct K as [|K]; [lia|]. simpl.
    exists (key complete h). split; [done|].
    assert (Hkb : key complete (length (pop p1)) = b) by (unfold key; by rewrite Hk).
    rewrite <- Hkb.
    apply elem_of_cons in Hin as [<-|Hin]; [apply better_eq_refl|].
    apply StronglySorted_inv in Hs as [_ Hf].
    rewrite Forall_forall in Hf. exact (Hf _ Hin).
Qed.
End EliteFacts.

Module EliteRun.
Import Individual Population Elite SortFacts EliteFacts.

Lemma run_inv {G} K (g0 : G) ps e c es asc o :
  Forall (fun p => ascending_order p = asc ∧ ind_options p = o) ps ->
  elite_inv K asc o e ->
  run K g0 ps e c = Some es ->
  Forall (elite_inv K asc o) es ∧
  (∀ n e1 e2, (e :: es) !! n = Some e1 -> (e :: es) !! S n = Some e2 ->
     no_regress asc (elite_scores e1) (elite_scores e2)).
Proof.
  revert e c es. induction ps as [|p ps IH]; intros e c es Hps Hinv Hrun.
  - simpl in Hrun. injection Hrun as <-. split; [constructor|].
    intros n e1 e2 _ H2. simpl in H2. by rewrite lookup_nil in H2.
  - apply Forall_cons in Hps as [[Ha Ho] Hps].
    cbn in Hrun.
    destruct (update K g0 p e c) as [[[e1 p1] c1]|] eqn:Hu; [|discriminate].
    cbn in Hrun.
    destruct (run K g0 ps e1 c1) as [es'|] eqn:Hr; [|discriminate].
    cbn in Hrun. injection Hrun as <-.
    destruct (update_inv K g0 p e c e1 p1 c1 asc o Ha Ho Hinv Hu) as [Hinv1 Hnr].
    destruct (IH e1 c1 es' Hps Hinv1 Hr) as [Hall Hch].
    split; [by constructor|].
    intros [|n] e2 e3 H2 H3.
    + simpl in H2, H3. injection H2 as <-. injection H3 as <-. exact Hnr.
    + exact (Hch n e2 e3 H2 H3).
Qed.
End EliteRun.

(** Claim C7: for an elite of capacity [K] and any sequence of
    [update(population)] calls from the empty elite, with one ordering
    direction and one set of options, every elite after an update holds at
    most [K] entries, its scores are the fitnesses of its members and are
    sorted best-first, and its best score is at least as good as the best
    score of the elite before that update. *)
Theorem elite_update_keeps_best {G} (K : nat) (g0 : G) ps c es asc o :
  Forall (fun p => Population.ascending_order p = asc ∧ Population.ind_options p = o) ps ->
  Elite.run K g0 ps Elite.empty c = Some es ->
  (∀ n e, es !! n = Some e ->
     (length (Elite.elite_inds e) <= K)%nat ∧
     (length (Elite.elite_scores e) <= K)%nat ∧
     Elite.elite_scores e = Individual.fitness o <$> Elite.elite_inds e ∧
     Sorted (Population.better_eq asc) (Elite.elite_scores e)) ∧
  (∀ n e e', es !! n = Some e -> es !! S n = Some e' ->
     ∀ b, head (Elite.elite_scores e) = Some b ->
     ∃ b', head (Elite.elite_scores e') = Some b' ∧ Population.better_eq asc b' b).
Proof.
  intros Hps Hrun.
  assert (H0 : EliteFacts.elite_inv K asc o (Elite.empty (G:=G))).
  { split; [simpl; lia|split; [done|constructor]]. }
  destruct (EliteRun.run_inv K g0 ps _ c es asc o Hps H0 Hrun) as [Hall Hch].
  split.
  - intros n e He. rewrite Forall_lookup in Hall.
    destruct (Hall n e He) as [Hl [Hs Hsort]].
    split; [done|split; [|done]].
    rewrite Hs, length_fmap. done.
  - intros n e e' H1 H2. exact (Hch (S n) e e' H1 H2).
Qed.

Lemma elite_update_keeps_best_witness :
  Forall (fun p => Population.ascending_order p = true ∧
                   Population.ind_options p = Samples.default_options) Samples.elite_pops ∧
  Elite.run 2 tt Samples.elite_pops Elite.empty 10%Z = Some Samples.elite_trace ∧
  Samples.elite_trace = [Elite.mkElite
    [Individual.mkInd (-1) true (Individual.mkEval 3 0 "") ["void"] 0 0 tt;
     Individual.mkInd (-1) true (Individual.mkEval 5 0 "") ["void"] 0 0 tt] [3; 5]%Z;
    Elite.mkElite
    [Individual.mkInd (-1) true (Individual.mkEval 3 0 "") ["void"] 0 0 tt;
     Individual.mkInd (-1) true (Individual.mkEval 4 0 "") ["void"] 0 0 tt] [3; 4]%Z] ∧
  ((∀ n e, Samples.elite_trace !! n = Some e ->
     (length (Elite.elite_inds e) <= 2)%nat ∧
     (length (Elite.elite_scores e) <= 2)%nat ∧
     Elite.elite_scores e =
       Individual.fitness Samples.default_options <$> Elite.elite_inds e ∧
     Sorted (Population.better_eq true) (Elite.elite_scores e)) ∧
   (∀ n e e', Samples.elite_trace !! n = Some e -> Samples.elite_trace !! S n = Some e' ->
     ∀ b, head (Elite.elite_scores e) = Some b ->
     ∃ b', head (Elite.elite_scores e') = Some b' ∧ Population.better_eq true b' b)).
Proof.
  split; [repeat constructor|].
  split; [vm_compute; reflexivity|].
  split; [vm_compute; reflexivity|].
  apply (elite_update_keeps_best 2 tt Samples.elite_pops 10%Z Samples.elite_trace true
           Samples.default_options).
  - repeat constructor.
  - vm_compute. reflexivity.
Defined.

(* ------------------------------------------------------------------ *)
(** ** Populations *)

Module PopFacts.
Import Individual Population SortFacts.

Lemma gather_perm {A} (l : list A) idx idx' : idx ≡ₚ idx' -> gather l idx ≡ₚ gather l idx'.
Proof.
  induction 1 as [|i idx idx' _ IH|i j idx|idx idx' idx'' _ IH1 _ IH2].
  - done.
  - rewrite !gather_cons. destruct (l !! i); [by constructor|done].
  - rewrite !gather_cons. destruct (l !! i), (l !! j); [constructor|done..].
  - by rewrite IH1.
Qed.

Lemma gather_seq {A} (l1 l2 : list A) : gather (l1 ++ l2) (seq (length l1) (length l2)) = l2.
Proof.
  revert l1. induction l2 as [|x l2 IH]; intros l1; [done|].
  simpl length. rewrite <- cons_seq, gather_cons.
  rewrite lookup_app_r, Nat.sub_diag by lia. simpl. f_equal.
  replace (S (length l1)) with (length (l1 ++ [x])) by (rewrite length_app; simpl; lia).
  specialize (IH (l1 ++ [x])). rewrite <- app_assoc in IH. exact IH.
Qed.

Lemma sort_sample_perm {G} (p : population (G:=G)) l : sort_sample p l ≡ₚ l.
Proof.
  unfold sort_sample. rewrite (gather_perm _ _ _ (argsort_scores_perm _ _)).
  unfold fitness_values. rewrite length_fmap.
  exact (eq_rect _ (fun z => z ≡ₚ l) (reflexivity l) _ (eq_sym (gather_seq [] l))).
Qed.

Lemma update_order_perm {G} (p : population (G:=G)) : pop (update_order p) ≡ₚ pop p.
Proof. unfold update_order. destruct (keep_sorted p); [apply sort_sample_perm|done]. Qed.

(** The fresh individuals created by [n] calls to [create]. *)
Definition fresh {G} (draw : nat -> G) (k : nat) (c : id_counter) (n : nat)
    : list (individual G) :=
  map (fun j => fst (init (draw (k + j)%nat) (c + Z.of_nat j)%Z)) (seq 0 n).

Lemma add_unevaluated {G} (x : individual G) p :
  is_evaluated x = false -> pop (add_individual x p) = pop p ++ [x] ∧
    keep_sorted (add_individual x p) = keep_sorted p ∧
    ascending_order (add_individual x p) = ascending_order p ∧
    ind_options (add_individual x p) = ind_options p.
Proof. intros H. unfold add_individual, is_valid. by rewrite H. Qed.

Lemma create_and_add_spec {G} (draw : nat -> G) k n p c :
  let '(p', c') := create_and_add draw k n p c in
  pop p' = pop p ++ fresh draw k c n ∧ c' = (c + Z.of_nat n)%Z ∧
  keep_sorted p' = keep_sorted p.
Proof.
  revert k p c. induction n as [|n IH]; intros k p c; simpl.
  - rewrite app_nil_r. repeat split; lia.
  - specialize (IH (S k) (add_individual (fst (init (draw k) c)) p) (c + 1)%Z).
    destruct (create_and_add _ _ _ _ _) as [p' c'].
    destruct IH as [Hp [Hc Hk]].
    destruct (add_unevaluated (fst (init (draw k) c)) p eq_refl) as [Hp1 [Hk1 _]].
    rewrite Hp, Hp1, Hk, Hk1. split; [|split; [lia|done]].
    rewrite <- app_assoc. f_equal. unfold fresh. simpl. f_equal.
    + by rewrite Nat.add_0_r, Z.add_0_r.
    + rewrite <- seq_shift, map_map. apply map_ext. intros j.
      rewrite Nat.add_succ_r.
      replace (c + Z.of_nat (S j))%Z with (c + 1 + Z.of_nat j)%Z by lia. done.
Qed.

(** [l !! i] of an index array, in terms of the permutation it gathers. *)
Lemma gather_lookup {A} (l : list A) idx i x :
  Forall (fun k => k < length l)%nat idx ->
  gather l idx !! i = Some x -> ∃ k, idx !! i = Some k ∧ l !! k = Some x.
Proof.
  intros Hb. revert i. induction Hb as [|k idx Hk _ IH]; intros i H; [done|].
  rewrite gather_cons in H. destruct (lookup_lt_is_Some_2 l k Hk) as [y Hy].
  rewrite Hy in H. destruct i as [|i]; simpl in H.
  - injection H as <-. by exists k.
  - destruct (IH i H) as [k' Hk']. by exists k'.
Qed.

Lemma StronglySorted_lookup {A} (P : A -> A -> Prop) l i j a b :
  StronglySorted P l -> l !! i = Some a -> l !! j = Some b -> (i < j)%nat -> P a b.
Proof.
  intros Hs. revert i j. induction Hs as [|x l Hs IH Hf]; intros i j Ha Hb Hij; [done|].
  destruct i as [|i], j as [|j]; simpl in Ha, Hb; try lia.
  - injection Ha as <-. rewrite Forall_forall in Hf. apply Hf.
    exact (list_elem_of_lookup_2 _ _ _ Hb).
  - apply (IH i j); [done|done|lia].
Qed.
End PopFacts.

(** Claim C8 (counterexample): a sorted population of 2 individuals with
    immigration rate 1/2 has 3 individuals after [migrate()]: the one
    immigrant (id 10, fresh from the counter) is added, nothing is replaced. *)
Lemma migrate_grows_population :
  let '(p', c') := Population.migrate (fun _ => tt) Samples.migrate_pop 10%Z in
  length (Population.pop Samples.migrate_pop) = 2%nat ∧
  length (Population.pop p') = 3%nat ∧
  Individual.ind_id <$> Population.pop p' = [10; 0; 1]%Z ∧
  c' = 11%Z.
Proof. vm_compute. repeat split. Qed.

(** Claim C9: in descending order the rank [size - searchsorted(reversed
    fitnesses, fit) - 1] is one place too far left.  Adding a valid
    individual of fitness 4 to the sorted population with fitnesses
    [5, 3, 1] inserts it at index 0, and the population [4, 5, 3, 1] is no
    longer sorted best-first. *)
Theorem add_individual_descending_misplaces :
  let p := Samples.descending_pop in
  let o := Population.ind_options p in
  Population.is_sorted p = true ∧ Population.keep_sorted p = true ∧
  Population.ascending_order p = false ∧
  Individual.is_valid Samples.newcomer = true ∧
  Individual.fitness o Samples.newcomer = 4%Z ∧
  Sorted (Population.better_eq false) (Population.fitness_values o (Population.pop p)) ∧
  Population.rank_of_fitness p 4 = 0%Z ∧
  Population.fitness_values o (Population.pop (Population.add_individual Samples.newcomer p)) =
    [4; 5; 3; 1]%Z ∧
  ¬ Sorted (Population.better_eq false)
      (Population.fitness_values o (Population.pop (Population.add_individual Samples.newcomer p))).
Proof.
  cbv zeta. split; [reflexivity|]. split; [reflexivity|]. split; [reflexivity|].
  split; [reflexivity|]. split; [reflexivity|].
  split; [vm_compute; repeat constructor; discriminate|].
  split; [reflexivity|].
  assert (E : Population.fitness_values (Population.ind_options Samples.descending_pop)
                (Population.pop (Population.add_individual Samples.newcomer
                   Samples.descending_pop)) = [4; 5; 3; 1]%Z) by reflexivity.
  split; [exact E|]. rewrite E. intros Hs.
  apply Sorted_inv in Hs as [_ Hh]. apply HdRel_inv in Hh. unfold Population.better_eq in Hh.
  lia.
Qed.

(** Claim C10 (counterexample): with the default [invalid_fit_value] of 0
    and ascending order, [sort()] puts the never-evaluated individual 1
    (fitness 0) before the valid individual 0 (fitness 5). *)
Lemma sort_puts_invalid_first :
  let p := Population.sort Samples.mixed_pop in
  Individual.ind_id <$> Population.pop p = [1; 0]%Z ∧
  Individual.is_valid <$> Population.pop p = [false; true].
Proof. split; reflexivity. Qed.

(** Claim C10 (amended): invalid individuals are sorted by
    [invalid_fit_value] like any other fitness.  When that value is
    strictly worse than the fitness of every valid individual of the
    population (under the ordering direction), every valid individual comes
    before every invalid one after [sort()]. *)
Theorem sort_invalid_last_when_sentinel_worst {G} (p : Population.population (G:=G)) :
  Forall (fun x => Individual.is_valid x = true ->
            Population.strictly_better (Population.ascending_order p)
              (Individual.fitness (Population.ind_options p) x)
              (Individual.invalid_fit_value (Population.ind_options p)))
    (Population.pop p) ->
  ∀ i j x y,
    Population.pop (Population.sort p) !! i = Some x ->
    Population.pop (Population.sort p) !! j = Some y ->
    Individual.is_valid x = true -> Individual.is_valid y = false -> (i < j)%nat.
Proof.
  intros Hworse i j x y Hx Hy Hvx Hvy.
  set (o := Population.ind_options p) in *.
  set (asc := Population.ascending_order p) in *.
  set (l := Population.pop p) in *.
  set (fv := Population.fitness_values o l).
  unfold Population.sort, Population.sort_sample in Hx, Hy. cbn [Population.pop Population.with_pop] in Hx, Hy.
  fold o l asc fv in Hx, Hy.
  pose proof (SortFacts.argsort_scores_bound asc fv) as Hb.
  assert (Hl : length fv = length l) by apply length_fmap.
  rewrite Hl in Hb.
  destruct (PopFacts.gather_lookup l _ i x Hb Hx) as [kx [Hix Hkx]].
  destruct (PopFacts.gather_lookup l _ j y Hb Hy) as [ky [Hjy Hky]].
  assert (Hkey : ∀ k z, l !! k = Some z -> Population.key fv k = Individual.fitness o z).
  { intros k z Hz. unfold Population.key, fv, Population.fitness_values.
    rewrite list_lookup_fmap, Hz. done. }
  destruct (lt_eq_lt_dec i j) as [[Hlt|Heq]|Hgt]; [done| |exfalso].
  - subst j. rewrite Hx in Hy. injection Hy as ->. congruence.
  - pose proof (PopFacts.StronglySorted_lookup _ _ j i ky kx
                  (SortFacts.argsort_scores_strongly asc fv) Hjy Hix Hgt) as Hr.
    unfold SortFacts.Rb in Hr. rewrite (Hkey _ _ Hky), (Hkey _ _ Hkx) in Hr.
    unfold Individual.fitness at 1 in Hr. rewrite Hvy in Hr.
    rewrite Forall_forall in Hworse.
    pose proof (Hworse x (list_elem_of_lookup_2 _ _ _ Hkx) Hvx) as Hw.
    unfold Population.better_eq, Population.strictly_better in Hr, Hw.
    destruct asc; lia.
Qed.

Lemma sort_invalid_last_when_sentinel_worst_witness :
  Forall (fun x => Individual.is_valid x = true ->
            Population.strictly_better (Population.ascending_order Samples.sentinel_pop)
              (Individual.fitness (Population.ind_options Samples.sentinel_pop) x)
              (Individual.invalid_fit_value (Population.ind_options Samples.sentinel_pop)))
    (Population.pop Samples.sentinel_pop) ∧
  Individual.is_valid <$> Population.pop (Population.sort Samples.sentinel_pop) =
    [true; true; false] ∧
  ∀ i j x y,
    Population.pop (Population.sort Samples.sentinel_pop) !! i = Some x ->
    Population.pop (Population.sort Samples.sentinel_pop) !! j = Some y ->
    Individual.is_valid x = true -> Individual.is_valid y = false -> (i < j)%nat.
Proof.
  assert (H : Forall (fun x => Individual.is_valid x = true ->
            Population.strictly_better (Population.ascending_order Samples.sentinel_pop)
              (Individual.fitness (Population.ind_options Samples.sentinel_pop) x)
              (Individual.invalid_fit_value (Population.ind_options Samples.sentinel_pop)))
    (Population.pop Samples.sentinel_pop)).
  { vm_compute. repeat constructor; vm_compute; intros; first [reflexivity | discriminate]. }
  split; [exact H|]. split; [reflexivity|].
  exact (sort_invalid_last_when_sentinel_worst Samples.sentinel_pop H).
Defined.

(** Claim C2: with the default selector options ([keep_best] and
    [limit_size] on, [allow_copies] on) the list returned by selection can
    miss the population's best individual.  Selecting 2 of the sorted
    population with fitnesses 1, 2, 3 where the draws give individuals 1
    and 2, [best_preservation] finds the best (id 0, fitness 1) not
    included, rebinds its local [selected] to [selected[:-1]] and appends the
    best to that new list; the caller's list keeps the two copies of
    fitness 2 and 3. *)
Theorem selection_drops_best :
  let p := Samples.sel_pop in
  let s := Samples.default_selector in
  Selector.keep_best s = true ∧ Selector.limit_size s = true ∧
  Selector.n_selected_of s p = 2%Z ∧
  Selector.get_best_ind p = Some (Samples.evaluated_ind 0 1) ∧
  Individual.is_valid (Samples.evaluated_ind 0 1) = true ∧
  match Selector.get_selection Samples.sel_pick tt s p 10%Z with
  | Some (r, _, _) =>
      (fun y => (Individual.ind_id y, Individual.fitness (Population.ind_options p) y)) <$> r
        = [(-1, 2); (-1, 3)]%Z
  | None => False
  end.
Proof. cbv zeta. repeat split; vm_compute; reflexivity. Qed.

(* ------------------------------------------------------------------ *)
(** ** The single evaluator *)

Module EvalFacts.
Import Individual Population Evaluator.

Definition no_other {G} (f : individual G -> outcome * Z) (x : individual G) : Prop :=
  is_evaluated x = false -> ∀ msg t, f x ≠ (RaisesOther msg, t).

Lemma eval_loop_ok {G} (f : individual G -> outcome * Z) l n :
  Forall (no_other f) l -> ∃ n', eval_loop f l n = (eval_one f <$> l, n', None).
Proof.
  revert n. induction l as [|x l IH]; intros n Hl; [by exists n|].
  apply Forall_cons in Hl as [Hx Hl]. simpl. unfold eval_one at 1.
  destruct (is_evaluated x) eqn:Ev.
  - destruct (IH n Hl) as [n' ->]. by exists n'.
  - destruct (f x) as [[fit|msg|msg] t] eqn:Ef.
    + destruct (IH (n + 1)%Z Hl) as [n' ->]. by exists n'.
    + destruct (IH (n + 1)%Z Hl) as [n' ->]. by exists n'.
    + exfalso. exact (Hx Ev msg t Ef).
Qed.

Lemma eval_loop_abort {G} (f : individual G -> outcome * Z) l1 x l2 n msg t :
  Forall (no_other f) l1 -> is_evaluated x = false -> f x = (RaisesOther msg, t) ->
  ∃ n', eval_loop f (l1 ++ x :: l2) n = ((eval_one f <$> l1) ++ x :: l2, n', Some msg).
Proof.
  intros Hl Ev Ef. revert n. induction Hl as [|y l1 Hy Hl IH]; intros n.
  - simpl. rewrite Ev, Ef. by eexists.
  - simpl. unfold eval_one at 1.
    destruct (is_evaluated y) eqn:Ey.
    + destruct (IH n) as [n' ->]. by exists n'.
    + destruct (f y) as [[fit|m|m] t'] eqn:Ef'.
      * destruct (IH (n + 1)%Z) as [n' ->]. by exists n'.
      * destruct (IH (n + 1)%Z) as [n' ->]. by exists n'.
      * exfalso. exact (Hy Ey m t' Ef').
Qed.
End EvalFacts.

(** Claim C5 (counterexample): a callback raising an exception other than
    [IgnoreException] on the first individual aborts the evaluation phase:
    the exception escapes, no error text is recorded and the second
    individual is never evaluated. *)
Lemma evaluation_aborts_on_other_exception :
  let '(p', n, e) := Evaluator.evaluate_pop Samples.boom_cb Samples.eval_pop in
  e = Some "boom"%string ∧
  Individual.is_evaluated <$> Population.pop p' = [false; false] ∧
  n = 1%Z.
Proof. vm_compute. repeat split. Qed.

(** Claim C5 (amended): only [IgnoreException] is caught.  (1) When the
    callback raises nothing else on the unevaluated individuals, the phase
    completes: each unevaluated individual gets its fitness, or fitness 0
    and the exception text, and the population is a permutation of the
    updated individuals.  (2) An individual on which the callback raised
    [IgnoreException(msg)] is evaluated, records [msg] as [err_eval], and is
    valid exactly when [msg] is empty.  (3) When the callback raises any
    other exception on an unevaluated individual, the exception escapes at
    that individual: the ones before it are updated, it and the ones after
    it are left as they were, and [update_order] is skipped. *)
Theorem evaluate_pop_catches_only_ignore {G} (f : Individual.individual G -> Evaluator.outcome * Z)
    (p : Population.population (G:=G)) :
  (Forall (EvalFacts.no_other f) (Population.pop p) ->
   let '(p', _, e) := Evaluator.evaluate_pop f p in
   e = None ∧ Population.pop p' ≡ₚ Evaluator.eval_one f <$> Population.pop p) ∧
  (∀ x msg t, Individual.is_evaluated x = false -> f x = (Evaluator.RaisesIgnore msg, t) ->
   let y := Evaluator.eval_one f x in
   Individual.is_evaluated y = true ∧ Individual.err_eval y = msg ∧
   (Individual.is_valid y = true <-> msg = ""%string)) ∧
  (∀ l1 x l2 msg t, Population.pop p = l1 ++ x :: l2 ->
   Forall (EvalFacts.no_other f) l1 -> Individual.is_evaluated x = false ->
   f x = (Evaluator.RaisesOther msg, t) ->
   let '(p', _, e) := Evaluator.evaluate_pop f p in
   e = Some msg ∧ Population.pop p' = (Evaluator.eval_one f <$> l1) ++ x :: l2).
Proof.
  split; [|split].
  - intros Hall. unfold Evaluator.evaluate_pop.
    destruct (EvalFacts.eval_loop_ok f _ 0 Hall) as [n' ->].
    split; [done|]. apply PopFacts.update_order_perm.
  - intros x msg t Ev Ef. unfold Evaluator.eval_one. rewrite Ev, Ef.
    unfold Individual.is_valid, Individual.err_eval. simpl.
    split; [done|split; [done|]]. by rewrite bool_decide_eq_true.
  - intros l1 x l2 msg t Hp Hl Ev Ef. unfold Evaluator.evaluate_pop. rewrite Hp.
    destruct (EvalFacts.eval_loop_abort f l1 x l2 0 msg t Hl Ev Ef) as [n' ->].
    done.
Qed.

Lemma evaluate_pop_catches_only_ignore_witness :
  Forall (EvalFacts.no_other Samples.ignore_cb) (Population.pop Samples.eval_pop) ∧
  (let '(p', _, e) := Evaluator.evaluate_pop Samples.ignore_cb Samples.eval_pop in
   e = None ∧ Population.pop p' ≡ₚ
     Evaluator.eval_one Samples.ignore_cb <$> Population.pop Samples.eval_pop) ∧
  (let y := Evaluator.eval_one Samples.ignore_cb (Samples.unevaluated_ind 0) in
   Individual.is_evaluated y = true ∧ Individual.err_eval y = "bad"%string ∧
   (Individual.is_valid y = true <-> "bad"%string = ""%string)) ∧
  (let '(p', _, e) := Evaluator.evaluate_pop Samples.boom_cb Samples.eval_pop in
   e = Some "boom"%string ∧
   Population.pop p' = (Evaluator.eval_one Samples.boom_cb <$> [])
                         ++ Samples.unevaluated_ind 0 :: [Samples.unevaluated_ind 1]).
Proof.
  assert (H : Forall (EvalFacts.no_other Samples.ignore_cb) (Population.pop Samples.eval_pop)).
  { repeat constructor; intros _ msg t; vm_compute; discriminate. }
  split; [exact H|]. split.
  { exact (proj1 (evaluate_pop_catches_only_ignore Samples.ignore_cb Samples.eval_pop) H). }
  split.
  { exact (proj1 (proj2 (evaluate_pop_catches_only_ignore Samples.ignore_cb Samples.eval_pop))
             (Samples.unevaluated_ind 0) "bad" 3%Z eq_refl eq_refl). }
  exact (proj2 (proj2 (evaluate_pop_catches_only_ignore Samples.boom_cb Samples.eval_pop))
           [] (Samples.unevaluated_ind 0) [Samples.unevaluated_ind 1] "boom" 2%Z
           eq_refl (List.Forall_nil _) eq_refl eq_refl).
Defined.

(* ------------------------------------------------------------------ *)
(** ** NEAT graphs: cycle detection and the structural mutations *)

Module CycleFacts.
Import Neat.
Local Open Scope Z_scope.

Definition closed (cs : list (Z * Z)) (Q : Z -> Prop) : Prop :=
  ∀ a b, (a, b) ∈ cs -> Q a -> Q b.

Lemma closed_tail cs a b Q : closed ((a, b) :: cs) Q -> closed cs Q.
Proof. intros H x y Hin. apply H. by right. Qed.

Lemma cc_pass_some i cs v n v' n' :
  cc_pass i cs v n = Some (v', n') ->
  (length v' + n = length v + n')%nat ∧ (n <= n')%nat ∧ (∀ x, x ∈ v -> x ∈ v') ∧
  (NoDup v -> NoDup v') ∧ (i ∉ v -> i ∉ v') ∧
  (∀ Q, closed cs Q -> (∀ x, x ∈ v -> Q x) -> ∀ x, x ∈ v' -> Q x) ∧
  (n' = n -> v' = v ∧ ∀ a b, (a, b) ∈ cs -> a ∈ v -> b ∈ v).
Proof.
  revert v n. induction cs as [|[a b] cs IH]; intros v n H; simpl in H.
  - injection H as <- <-. split; [lia|]. split; [lia|].
    split; [done|]. split; [done|]. split; [done|]. split; [done|].
    intros _. split; [done|]. intros ? ? Hin. by apply elem_of_nil in Hin.
  - destruct (bool_decide (a ∈ v) && negb (bool_decide (b ∈ v))) eqn:Hc.
    + apply andb_true_iff in Hc as [Ha Hb].
      apply bool_decide_eq_true in Ha. apply negb_true_iff, bool_decide_eq_false in Hb.
      destruct (Z.eqb b i) eqn:Ebi; [discriminate|]. apply Z.eqb_neq in Ebi.
      destruct (IH _ _ H) as (Hl & Hn & Hsub & Hnd & Hi & HQ & _).
      simpl in Hl. split; [lia|]. split; [lia|].
      split; [intros x Hx; apply Hsub, elem_of_cons; by right|].
      split; [intros Hv; apply Hnd, NoDup_cons; by split|].
      split; [intros Hiv; apply Hi; rewrite elem_of_cons; intros [->|?]; [done|contradiction]|].
      split; [|intros ->; lia].
      intros Q HQc Hv. apply HQ; [exact (closed_tail _ _ _ _ HQc)|].
      intros x Hx. apply elem_of_cons in Hx as [->|Hx]; [|by apply Hv].
      apply (HQc a b); [by left|by apply Hv].
    + destruct (IH _ _ H) as (Hl & Hn & Hsub & Hnd & Hi & HQ & Hfix).
      split; [done|]. split; [done|]. split; [done|]. split; [done|]. split; [done|].
      split; [intros Q HQc; exact (HQ Q (closed_tail _ _ _ _ HQc))|].
      intros Hnn. destruct (Hfix Hnn) as [-> Hcl]. split; [done|].
      intros x y Hin Hx. apply elem_of_cons in Hin as [Heq|Hin]; [|exact (Hcl x y Hin Hx)].
      injection Heq as -> ->.
      destruct (decide (b ∈ v)) as [?|Hy]; [done|].
      exfalso. rewrite bool_decide_eq_true_2 in Hc by done.
      rewrite bool_decide_eq_false_2 in Hc by done. discriminate.
Qed.

Lemma cc_pass_none i cs v n :
  cc_pass i cs v n = None ->
  ∀ Q, closed cs Q -> (∀ x, x ∈ v -> Q x) -> Q i.
Proof.
  revert v n. induction cs as [|[a b] cs IH]; intros v n H Q HQc Hv; simpl in H; [done|].
  destruct (bool_decide (a ∈ v) && negb (bool_decide (b ∈ v))) eqn:Hc.
  - apply andb_true_iff in Hc as [Ha _]. apply bool_decide_eq_true in Ha.
    destruct (Z.eqb b i) eqn:Ebi.
    + apply Z.eqb_eq in Ebi as <-. apply (HQc a b); [by left|by apply Hv].
    + apply (IH _ _ H Q (closed_tail _ _ _ _ HQc)).
      intros x Hx. apply elem_of_cons in Hx as [->|Hx]; [|by apply Hv].
      apply (HQc a b); [by left|by apply Hv].
  - exact (IH _ _ H Q (closed_tail _ _ _ _ HQc) Hv).
Qed.

Lemma cc_loop_sound i cs fuel v :
  cc_loop fuel i cs v = true ->
  ∀ Q, closed cs Q -> (∀ x, x ∈ v -> Q x) -> Q i.
Proof.
  revert v. induction fuel as [|fuel IH]; intros v H Q HQc Hv; simpl in H; [discriminate|].
  destruct (cc_pass i cs v 0) as [[v' [|k]]|] eqn:Hp.
  - discriminate.
  - destruct (cc_pass_some _ _ _ _ _ _ Hp) as (_ & _ & _ & _ & _ & HQ & _).
    exact (IH v' H Q HQc (HQ Q HQc Hv)).
  - exact (cc_pass_none _ _ _ _ Hp Q HQc Hv).
Qed.

Lemma snd_in (cs : list (Z * Z)) (a b : Z) : (a, b) ∈ cs -> b ∈ map snd cs.
Proof.
  rewrite !list_elem_of_In. intros H. exact (in_map snd cs (a, b) H).
Qed.

Lemma cc_loop_complete i o cs fuel v :
  NoDup v -> i ∉ v -> (∀ x, x ∈ v -> x ∈ (o :: map snd cs)) ->
  (2 + length cs <= length v + fuel)%nat ->
  cc_loop fuel i cs v = false ->
  ∃ v' : list Z, (∀ x, x ∈ v -> x ∈ v') ∧ (i ∉ v') ∧ ∀ a b, (a, b) ∈ cs -> a ∈ v' -> b ∈ v'.
Proof.
  revert v. induction fuel as [|fuel IH]; intros v Hnd Hi Hsub Hlen H.
  - exfalso. pose proof (submseteq_length _ _ (NoDup_submseteq _ _ Hnd Hsub)) as Hl.
    simpl in Hl. rewrite length_map in Hl. lia.
  - simpl in H. destruct (cc_pass i cs v 0) as [[v' [|k]]|] eqn:Hp; [| |discriminate].
    + destruct (cc_pass_some _ _ _ _ _ _ Hp) as (_ & _ & _ & _ & _ & _ & Hfix).
      destruct (Hfix eq_refl) as [-> Hcl]. by exists v.
    + destruct (cc_pass_some _ _ _ _ _ _ Hp) as (Hl & _ & Hs & Hnd' & Hi' & HQ & _).
      destruct (IH v' (Hnd' Hnd) (Hi' Hi)) as (v'' & H1 & H2 & H3); [| |exact H|].
      * apply (HQ (fun x => x ∈ (o :: map snd cs))); [|done].
        intros a b Hin _. right. exact (snd_in _ _ _ Hin).
      * lia.
      * exists v''. split; [|done]. intros x Hx. by apply H1, Hs.
Qed.

(** Nodes reachable from a closed set stay in it. *)
Lemma closed_rtc (cs : list (Z * Z)) (v : list Z) x y :
  (∀ a b, (a, b) ∈ cs -> a ∈ v -> b ∈ v) ->
  rtc (fun a b => (a, b) ∈ cs) x y -> x ∈ v -> y ∈ v.
Proof. intros Hcl. induction 1 as [|a b c Hab _ IH]; [done|]. intros Ha. by apply IH, (Hcl a b). Qed.

Lemma creates_cycle_iff (cs : list (Z * Z)) i o :
  creates_cycle cs (i, o) = true <-> i = o ∨ rtc (fun a b => (a, b) ∈ cs) o i.
Proof.
  unfold creates_cycle. destruct (Z.eqb i o) eqn:E.
  - apply Z.eqb_eq in E. split; [by left|done].
  - apply Z.eqb_neq in E. split.
    + intros H. right. apply (cc_loop_sound i cs _ [o] H); [|].
      * intros a b Hin Ha. eapply rtc_r; [exact Ha|exact Hin].
      * intros x Hx. apply elem_of_cons in Hx as [->|Hx]; [constructor|by apply elem_of_nil in Hx].
    + intros [?|Hr]; [contradiction|].
      destruct (cc_loop (S (length cs)) i cs [o]) eqn:Hl; [done|].
      destruct (cc_loop_complete i o cs (S (length cs)) [o]) as (v' & H1 & H2 & H3); [| | | |exact Hl|].
      * apply NoDup_cons. split; [apply not_elem_of_nil|constructor].
      * rewrite elem_of_cons. intros [?|Hx]; [contradiction|by apply elem_of_nil in Hx].
      * intros x Hx. apply elem_of_cons in Hx as [->|Hx]; [by left|by apply elem_of_nil in Hx].
      * simpl. lia.
      * exfalso. apply H2. apply (closed_rtc cs v' o i H3 Hr). apply H1. by left.
Qed.

End CycleFacts.

Module NeatGraphFacts.
Import Neat NeatOps.
Local Open Scope Z_scope.

Lemma rtc_impl (R S : Z -> Z -> Prop) x y :
  (∀ a b, R a b -> S a b) -> rtc R x y -> rtc S x y.
Proof. intros H. induction 1; [constructor|]. econstructor; eauto. Qed.

Lemma tc_impl (R S : Z -> Z -> Prop) x y :
  (∀ a b, R a b -> S a b) -> tc R x y -> tc S x y.
Proof. intros H. induction 1; [by constructor; auto|]. eapply tc_l; eauto. Qed.

(** Adding one edge [a -> b]: a new path uses it at most through [a] and [b]. *)
Lemma tc_add_edge (R R' : Z -> Z -> Prop) a b x y :
  (∀ u v, R' u v -> R u v ∨ (u = a ∧ v = b)) ->
  tc R' x y -> tc R x y ∨ (rtc R x a ∧ rtc R b y).
Proof.
  intros HR. induction 1 as [x y Hxy|x z y Hxz _ IH].
  - destruct (HR _ _ Hxy) as [H|[-> ->]]; [left; by constructor|right; split; constructor].
  - destruct (HR _ _ Hxz) as [H|[-> ->]].
    + destruct IH as [IH|[IH1 IH2]]; [left; by eapply tc_l|right; split; [|done]].
      by eapply rtc_l.
    + right. split; [constructor|]. destruct IH as [IH|[_ IH]]; [by apply tc_rtc|done].
Qed.

(** Splitting an edge [a -> b] through a node [n] no edge touches. *)
Lemma tc_split (R R' : Z -> Z -> Prop) a b n :
  (∀ u v, R u v -> u ≠ n ∧ v ≠ n) -> R a b ->
  (∀ u v, R' u v -> R u v ∨ (u = a ∧ v = n) ∨ (u = n ∧ v = b)) ->
  ∀ x y, tc R' x y ->
  (x ≠ n -> y ≠ n -> tc R x y) ∧ (x ≠ n -> y = n -> rtc R x a) ∧
  (x = n -> y ≠ n -> rtc R b y) ∧ (x = n -> y = n -> rtc R b a).
Proof.
  intros Hn Hab HR. destruct (Hn _ _ Hab) as [Ha Hb].
  induction 1 as [x y Hxy|x z y Hxz _ IH].
  - destruct (HR _ _ Hxy) as [H|[[-> ->]|[-> ->]]].
    + destruct (Hn _ _ H). repeat split; intros; try congruence. by constructor.
    + repeat split; intros; try congruence. constructor.
    + repeat split; intros; try congruence. constructor.
  - destruct IH as (I1 & I2 & I3 & I4).
    destruct (HR _ _ Hxz) as [H|[[-> ->]|[-> ->]]].
    + destruct (Hn _ _ H) as [Hx Hz]. repeat split; intros; try congruence.
      * eapply tc_l; [exact H|auto].
      * eapply rtc_l; [exact H|auto].
    + repeat split; intros; try congruence; [|constructor].
      apply (tc_rtc_r _ b); [by constructor|auto].
    + repeat split; intros; try congruence.
      * by apply tc_rtc, I1.
      * auto.
Qed.

Lemma tc_split_acyclic (R R' : Z -> Z -> Prop) a b n :
  (∀ u v, R u v -> u ≠ n ∧ v ≠ n) -> R a b ->
  (∀ u v, R' u v -> R u v ∨ (u = a ∧ v = n) ∨ (u = n ∧ v = b)) ->
  (∀ m, ¬ tc R m m) -> ∀ m, ¬ tc R' m m.
Proof.
  intros Hn Hab HR Hac m H.
  destruct (tc_split R R' a b n Hn Hab HR m m H) as (I1 & _ & _ & I4).
  destruct (decide (m = n)) as [->|Hm].
  - apply (Hac a). apply (tc_rtc_r _ b); [by constructor|auto].
  - exact (Hac m (I1 Hm Hm)).
Qed.

(** The list [enabled_connections] of [_add_connection] is the enabled graph. *)
Definition enabled_list (g : genome) : list (Z * Z) :=
  map endpoints (filter (fun c => c.(enabled) = true) g.(connections)).

Lemma enabled_list_iff g x y : (x, y) ∈ enabled_list g <-> enabled_edge g x y.
Proof.
  unfold enabled_list, enabled_edge. rewrite list_elem_of_In, in_map_iff. split.
  - intros (c & Hc & Hin). rewrite <- list_elem_of_In, list_elem_of_filter in Hin.
    unfold endpoints in Hc. injection Hc as <- <-. exists c. tauto.
  - intros (c & Hin & He & <- & <-). exists c. split; [done|].
    rewrite <- list_elem_of_In, list_elem_of_filter. tauto.
Qed.

Lemma edge_add_connection c g x y :
  enabled_edge (add_connection c g) x y ->
  enabled_edge g x y ∨ (x = c.(in_node) ∧ y = c.(out_node)).
Proof.
  unfold add_connection. case_bool_decide; [by left|].
  intros (d & Hd & He & Hx & Hy). simpl in Hd.
  apply elem_of_app in Hd as [Hd|Hd].
  - left. by exists d.
  - apply list_elem_of_singleton in Hd as ->. by right.
Qed.

Lemma edge_update_conn cid f g x y :
  (∀ c, (f c).(in_node) = c.(in_node) ∧ (f c).(out_node) = c.(out_node) ∧
        ((f c).(enabled) = true -> c.(enabled) = true)) ->
  enabled_edge (update_conn cid f g) x y -> enabled_edge g x y.
Proof.
  intros Hf (d & Hd & He & Hx & Hy). simpl in Hd.
  rewrite list_elem_of_In, in_map_iff in Hd. destruct Hd as (c & <- & Hc).
  rewrite <- list_elem_of_In in Hc. exists c. split; [done|].
  destruct (Z.eqb (conn_id c) cid); [|done].
  destruct (Hf c) as (H1 & H2 & H3). rewrite <- H1, <- H2. auto.
Qed.

Lemma edge_subset g g' x y :
  (∀ c, c ∈ g'.(connections) -> c ∈ g.(connections)) ->
  enabled_edge g' x y -> enabled_edge g x y.
Proof. intros H (d & Hd & He & Hx & Hy). exists d. auto. Qed.

Lemma acyclic_subset g g' :
  (∀ c, c ∈ g'.(connections) -> c ∈ g.(connections)) -> acyclic g -> acyclic g'.
Proof.
  intros H Hg n Hc. apply (Hg n). revert Hc. apply tc_impl. intros. by eapply edge_subset.
Qed.

Lemma has_connections_lookup g k c :
  g.(connections) !! k = Some c -> has_connections g = true.
Proof.
  intros H. unfold has_connections. case_bool_decide as E; [|done].
  rewrite E in H. done.
Qed.

Lemma initial_genome_edges x y : enabled_edge initial_genome x y -> x = 0 ∧ y = 1.
Proof.
  intros (c & Hc & _ & Hx & Hy). simpl in Hc.
  apply list_elem_of_singleton in Hc as ->. simpl in *. lia.
Qed.

Lemma initial_genome_acyclic : acyclic initial_genome.
Proof.
  intros n H. assert (Hp : ∀ x y, tc (enabled_edge initial_genome) x y -> x = 0 ∧ y = 1).
  { induction 1 as [x y Hxy|x z y Hxz _ IH]; [by apply initial_genome_edges|].
    apply initial_genome_edges in Hxz. lia. }
  destruct (Hp n n H). lia.
Qed.

End NeatGraphFacts.

(** [creates_cycle(connections, (i, o))] returns [True] exactly when
    [i = o] or [i] is reachable from [o] along the given connections, so
    adding [i -> o] would close a cycle. *)
Theorem creates_cycle_iff_reachable (cs : list (Z * Z)) (i o : Z) :
  Neat.creates_cycle cs (i, o) = true <->
  i = o ∨ rtc (fun a b => (a, b) ∈ cs) o i.
Proof. apply CycleFacts.creates_cycle_iff. Qed.

(** [_add_connection] keeps the enabled graph of a genome acyclic, unless it
    re-enables an existing disabled connection between the two drawn nodes
    (which it does without a cycle check). *)
Theorem add_connection_keeps_acyclic (ed : bool) (w a b : Z) (g : Neat.genome)
    (t : Innovation.tracker) :
  Neat.acyclic g ->
  (∀ c, c ∈ g.(Neat.connections) -> Neat.endpoints c = (a, b) -> c.(Neat.enabled) = true) ->
  let '(_, g', _) := Neat.mut_add_connection ed w a b g t in Neat.acyclic g'.
Proof.
  intros Hac Hen. unfold Neat.mut_add_connection.
  destruct (Z.eqb a b) eqn:Eab; [done|].
  destruct (list_find _ _) as [[j c]|] eqn:Hf.
  - apply list_find_Some in Hf as (Hj & Hp & _).
    rewrite (Hen c (list_elem_of_lookup_2 _ _ _ Hj) Hp). done.
  - destruct (Neat.creates_cycle _ (a, b)) eqn:Hcc; [done|].
    unfold Neat.link. destruct (Innovation.get_connection_id a b t) as [cid t1]. cbv beta iota.
    intros n Hn.
    destruct (NeatGraphFacts.tc_add_edge (Neat.enabled_edge g) _ a b n n
                (NeatGraphFacts.edge_add_connection (Neat.mkConn cid a b w ed) g) Hn) as [H|[H1 H2]].
    + exact (Hac n H).
    + assert (Hr : rtc (fun x y => (x, y) ∈ NeatGraphFacts.enabled_list g) b a).
      { apply (NeatGraphFacts.rtc_impl (Neat.enabled_edge g)); [|by etrans].
        intros x y. apply NeatGraphFacts.enabled_list_iff. }
      fold (NeatGraphFacts.enabled_list g) in Hcc.
      assert (Htrue := proj2 (CycleFacts.creates_cycle_iff _ a b) (or_intror Hr)).
      congruence.
Qed.

Module NeatWfFacts.
Import Neat NeatOps NeatGraphFacts.
Local Open Scope Z_scope.

(** Every connection joins two nodes of the genome. *)
Definition endpoints_present (g : genome) : Prop :=
  ∀ c, c ∈ g.(connections) ->
       c.(in_node) ∈ map node_id g.(nodes) ∧ c.(out_node) ∈ map node_id g.(nodes).

Lemma add_node_connections nd g : (add_node nd g).(connections) = g.(connections).
Proof. unfold add_node. by case_bool_decide. Qed.

Lemma add_node_ids nd g x :
  x ∈ map node_id g.(nodes) ∨ x = nd.(node_id) -> x ∈ map node_id (add_node nd g).(nodes).
Proof.
  unfold add_node. case_bool_decide as H; intros [Hx| ->]; try done; simpl;
    rewrite map_app, elem_of_app; [by left|right; by left].
Qed.

Lemma add_connection_wf c g :
  endpoints_present g -> c.(in_node) ∈ map node_id g.(nodes) ->
  c.(out_node) ∈ map node_id g.(nodes) -> endpoints_present (add_connection c g).
Proof.
  intros Hg Hi Ho. unfold add_connection. case_bool_decide; [done|].
  intros d Hd. simpl in Hd. apply elem_of_app in Hd as [Hd|Hd]; [by apply Hg|].
  by apply list_elem_of_singleton in Hd as ->.
Qed.

Lemma update_conn_wf cid f g :
  (∀ c, (f c).(in_node) = c.(in_node) ∧ (f c).(out_node) = c.(out_node)) ->
  endpoints_present g -> endpoints_present (update_conn cid f g).
Proof.
  intros Hf Hg d Hd. simpl in Hd. rewrite list_elem_of_In, in_map_iff in Hd.
  destruct Hd as (c & <- & Hc). rewrite <- list_elem_of_In in Hc. simpl.
  destruct (Z.eqb (conn_id c) cid); [rewrite (proj1 (Hf c)), (proj2 (Hf c))|]; by apply Hg.
Qed.

Lemma add_node_wf nd g : endpoints_present g -> endpoints_present (add_node nd g).
Proof.
  intros Hg c. rewrite add_node_connections. intros Hc.
  destruct (Hg c Hc). split; apply add_node_ids; by left.
Qed.

Lemma no_connections g : has_connections g = false -> g.(connections) = [].
Proof. unfold has_connections. case_bool_decide; done. Qed.

Lemma weights_conns draw wmin wmax g :
  (snd (mut_weights draw wmin wmax g)).(nodes) = g.(nodes) ∧
  ∀ c', c' ∈ (snd (mut_weights draw wmin wmax g)).(connections) ->
  ∃ c w, c ∈ g.(connections) ∧ c' = set_weight wmin wmax w c.
Proof.
  unfold mut_weights. destruct (has_connections g) eqn:Hh; simpl.
  - split; [done|]. intros c' Hc'. apply elem_of_lookup_imap_1 in Hc' as (j & c & -> & Hj).
    destruct (draw j) as [r p]. eexists c, _. split; [exact (list_elem_of_lookup_2 _ _ _ Hj)|].
    reflexivity.
  - split; [done|]. rewrite (no_connections g Hh). intros c' Hc'. by apply elem_of_nil in Hc'.
Qed.

End NeatWfFacts.

(** [_add_node] keeps the enabled graph acyclic when the hidden node id the
    tracker gives for the split connection is not yet an endpoint of an
    enabled connection: the split edge [a -> b] is disabled and replaced by
    [a -> n -> b]. *)
Theorem add_node_keeps_acyclic (k : nat) (g : Neat.genome) (t : Innovation.tracker)
    (c : Neat.connection_gene) :
  Neat.acyclic g -> g.(Neat.connections) !! k = Some c ->
  (∀ x y, Neat.enabled_edge g x y ->
     x ≠ fst (Innovation.get_split_node_id c.(Neat.in_node) c.(Neat.out_node) t) ∧
     y ≠ fst (Innovation.get_split_node_id c.(Neat.in_node) c.(Neat.out_node) t)) ->
  let '(_, g', _) := NeatOps.mut_add_node k g t in Neat.acyclic g'.
Proof.
  intros Hac Hk Hfresh. unfold NeatOps.mut_add_node.
  rewrite (NeatGraphFacts.has_connections_lookup _ _ _ Hk), Hk.
  destruct (Neat.enabled c) eqn:Ec; [|done]. cbv beta iota zeta. cbn [negb].
  unfold NeatOps.create_split_node.
  destruct (Innovation.get_split_node_id (Neat.in_node c) (Neat.out_node c) t) as [n t1].
  simpl fst in Hfresh. unfold NeatOps.create_connection.
  destruct (Innovation.get_connection_id (Neat.in_node c) n t1) as [cid1 t2].
  destruct (Innovation.get_connection_id n (Neat.out_node c) t2) as [cid2 t3].
  cbv beta iota. unfold Neat.acyclic.
  apply (NeatGraphFacts.tc_split_acyclic (Neat.enabled_edge g) _
           (Neat.in_node c) (Neat.out_node c) n Hfresh); [| |exact Hac].
  - exists c. split; [exact (list_elem_of_lookup_2 _ _ _ Hk)|done].
  - intros u v H.
    apply NeatGraphFacts.edge_add_connection in H as [H|[-> ->]]; [|right; by right].
    apply NeatGraphFacts.edge_add_connection in H as [H|[-> ->]]; [|right; by left].
    left. apply NeatGraphFacts.edge_subset
            with (g := Neat.update_conn (Neat.conn_id c) NeatOps.disable g) in H.
    + revert H. apply NeatGraphFacts.edge_update_conn.
      intros d. simpl. repeat split. discriminate.
    + intros d. by rewrite NeatWfFacts.add_node_connections.
Qed.

(** [_del_connection] and [_del_node] only remove connections, so they never
    make an acyclic enabled graph cyclic. *)
Theorem deletions_keep_acyclic (k : nat) (g : Neat.genome) :
  Neat.acyclic g ->
  Neat.acyclic (snd (NeatOps.mut_del_connection k g)) ∧
  ∀ r g', NeatOps.mut_del_node k g = Some (r, g') -> Neat.acyclic g'.
Proof.
  intros Hac. split.
  - unfold NeatOps.mut_del_connection.
    destruct (Neat.has_connections g); [|done]. simpl.
    destruct (Neat.connections g !! k); [|done]. simpl.
    apply (NeatGraphFacts.acyclic_subset g); [|done].
    intros d Hd. simpl in Hd. by apply list_elem_of_filter in Hd as [_ Hd].
  - intros r g' H. unfold NeatOps.mut_del_node in H.
    destruct (Neat.nodes g !! k) as [nd|]; [|discriminate]. simpl in H.
    destruct (Neat.ntype nd); injection H as <- <-; [done| |done].
    apply (NeatGraphFacts.acyclic_subset g); [|done].
    intros d Hd. simpl in Hd. by apply list_elem_of_filter in Hd as [_ Hd].
Qed.

(** Every NEAT structural mutation keeps each connection's two endpoints
    among the genome's nodes, provided [_add_connection] draws its two
    nodes from the genome; [_del_node] removes the node's connections with
    it. *)
Theorem mutations_keep_endpoints_present (g : Neat.genome) (t : Innovation.tracker) :
  NeatWfFacts.endpoints_present g ->
  (∀ ed w a b, a ∈ map Neat.node_id g.(Neat.nodes) -> b ∈ map Neat.node_id g.(Neat.nodes) ->
     let '(_, g', _) := Neat.mut_add_connection ed w a b g t in
     NeatWfFacts.endpoints_present g') ∧
  (∀ k, NeatWfFacts.endpoints_present (snd (NeatOps.mut_del_connection k g))) ∧
  (∀ k, let '(_, g', _) := NeatOps.mut_add_node k g t in NeatWfFacts.endpoints_present g') ∧
  (∀ k r g', NeatOps.mut_del_node k g = Some (r, g') -> NeatWfFacts.endpoints_present g') ∧
  (∀ k, NeatWfFacts.endpoints_present (snd (Neat.mut_toggle_connection k g))) ∧
  (∀ draw wmin wmax,
     NeatWfFacts.endpoints_present (snd (NeatOps.mut_weights draw wmin wmax g))).
Proof.
  intros Hg. split; [|split; [|split; [|split; [|split]]]].
  - intros ed w a b Ha Hb. unfold Neat.mut_add_connection.
    destruct (Z.eqb a b); [done|].
    destruct (list_find _ _) as [[j c]|].
    + destruct (negb (Neat.enabled c)); [|done].
      apply NeatWfFacts.update_conn_wf; [|done]. intros; done.
    + destruct (Neat.creates_cycle _ _); [done|].
      unfold Neat.link. destruct (Innovation.get_connection_id a b t) as [cid t1].
      by apply NeatWfFacts.add_connection_wf.
  - intros k. unfold NeatOps.mut_del_connection.
    destruct (Neat.has_connections g); [|done]. simpl.
    destruct (Neat.connections g !! k); [|done]. simpl.
    intros d Hd. simpl in Hd. apply list_elem_of_filter in Hd as [_ Hd]. by apply Hg.
  - intros k. unfold NeatOps.mut_add_node.
    destruct (Neat.has_connections g); [|done]. cbn [negb].
    destruct (Neat.connections g !! k) as [c|] eqn:Hk; [|done].
    destruct (Neat.enabled c); [|done]. cbv beta iota zeta. cbn [negb].
    unfold NeatOps.create_split_node.
    destruct (Innovation.get_split_node_id (Neat.in_node c) (Neat.out_node c) t) as [n t1].
    unfold NeatOps.create_connection.
    destruct (Innovation.get_connection_id (Neat.in_node c) n t1) as [cid1 t2].
    destruct (Innovation.get_connection_id n (Neat.out_node c) t2) as [cid2 t3].
    cbv beta iota.
    assert (Hc : c ∈ Neat.connections g) by exact (list_elem_of_lookup_2 _ _ _ Hk).
    set (g2 := NeatOps.add_node _ _).
    assert (Hn : n ∈ map Neat.node_id (Neat.nodes g2)) by (apply NeatWfFacts.add_node_ids; by right).
    assert (Hold : ∀ x, x ∈ map Neat.node_id (Neat.nodes g) -> x ∈ map Neat.node_id (Neat.nodes g2)).
    { intros x Hx. apply NeatWfFacts.add_node_ids. by left. }
    assert (Hw2 : NeatWfFacts.endpoints_present g2).
    { apply NeatWfFacts.add_node_wf, NeatWfFacts.update_conn_wf; [|done]. intros; done. }
    destruct (Hg c Hc) as [Hi Ho].
    apply NeatWfFacts.add_connection_wf.
    + apply NeatWfFacts.add_connection_wf; [done|simpl; by apply Hold|done].
    + unfold Neat.add_connection. by case_bool_decide.
    + unfold Neat.add_connection. case_bool_decide; simpl; by apply Hold.
  - intros k r g' H. unfold NeatOps.mut_del_node in H.
    destruct (Neat.nodes g !! k) as [nd|]; [|discriminate]. simpl in H.
    destruct (Neat.ntype nd); injection H as <- <-; [done| |done].
    intros d Hd. simpl in Hd. apply list_elem_of_filter in Hd as [[Hi Ho] Hd].
    destruct (Hg d Hd) as [Hi' Ho']. simpl.
    rewrite !list_elem_of_In, !in_map_iff in *.
    destruct Hi' as (m & Hm & Hmin). destruct Ho' as (m' & Hm' & Hmin').
    split; [exists m|exists m']; (split; [done|]); rewrite <- list_elem_of_In, list_elem_of_filter;
      (split; [congruence|by rewrite list_elem_of_In]).
  - intros k. unfold Neat.mut_toggle_connection.
    destruct (Neat.has_connections g); [|done]. simpl.
    destruct (Neat.connections g !! k); [|done]. simpl.
    apply NeatWfFacts.update_conn_wf; [|done]. intros; done.
  - intros draw wmin wmax d Hd.
    destruct (NeatWfFacts.weights_conns draw wmin wmax g) as [Hnodes Hconn].
    rewrite Hnodes. destruct (Hconn d Hd) as (c & w & Hc & ->). exact (Hg c Hc).
Qed.

(** [_mutate_weights] returns [False] on a genome without connections and
    [True] otherwise; it changes only weights, each of which ends up in
    [[weight_min_value, weight_max_value]] (when that range is non-empty),
    and leaves nodes, ids, endpoints and enabled flags as they were. *)
Theorem mutate_weights_clamped (draw : nat -> bool * Z) (wmin wmax : Z) (g : Neat.genome) :
  (wmin <= wmax)%Z ->
  let '(m, g') := NeatOps.mut_weights draw wmin wmax g in
  m = Neat.has_connections g ∧ g'.(Neat.nodes) = g.(Neat.nodes) ∧
  (fun c => (Neat.conn_id c, Neat.endpoints c, Neat.enabled c)) <$> g'.(Neat.connections) =
  (fun c => (Neat.conn_id c, Neat.endpoints c, Neat.enabled c)) <$> g.(Neat.connections) ∧
  ∀ c, c ∈ g'.(Neat.connections) -> (wmin <= Neat.weight c <= wmax)%Z.
Proof.
  intros Hw.
  destruct (NeatWfFacts.weights_conns draw wmin wmax g) as [Hn Hc].
  destruct (NeatOps.mut_weights draw wmin wmax g) as [m g'] eqn:E. simpl in Hn, Hc.
  split; [|split; [done|split]].
  - unfold NeatOps.mut_weights in E. by destruct (Neat.has_connections g); injection E as <- _.
  - unfold NeatOps.mut_weights in E. destruct (Neat.has_connections g); injection E as _ <-; [|done].
    simpl. rewrite fmap_imap, <- imap_const. apply imap_ext. intros j c _. simpl.
    by destruct (draw j) as [[] p].
  - intros c Hin. destruct (Hc c Hin) as (d & w & _ & ->). simpl. lia.
Qed.

Lemma add_connection_keeps_acyclic_witness :
  Neat.acyclic Neat.initial_genome ∧
  (∀ c, c ∈ Neat.initial_genome.(Neat.connections) ->
        Neat.endpoints c = (1%Z, 0%Z) -> c.(Neat.enabled) = true) ∧
  (let '(_, g', _) := Neat.mut_add_connection true 0 1 0 Neat.initial_genome
                        Neat.initial_tracker in Neat.acyclic g').
Proof.
  assert (H : ∀ c, c ∈ Neat.initial_genome.(Neat.connections) ->
                   Neat.endpoints c = (1%Z, 0%Z) -> c.(Neat.enabled) = true).
  { intros c Hc. simpl in Hc. apply list_elem_of_singleton in Hc as ->. vm_compute. discriminate. }
  split; [exact NeatGraphFacts.initial_genome_acyclic|split; [exact H|]].
  exact (add_connection_keeps_acyclic true 0 1 0 Neat.initial_genome Neat.initial_tracker
           NeatGraphFacts.initial_genome_acyclic H).
Defined.

Lemma add_node_keeps_acyclic_witness :
  Neat.acyclic Neat.initial_genome ∧
  Neat.initial_genome.(Neat.connections) !! 0%nat = Some (Neat.mkConn 0 0 1 0 true) ∧
  (let '(_, g', _) := NeatOps.mut_add_node 0 Neat.initial_genome Neat.initial_tracker in
   Neat.acyclic g').
Proof.
  assert (Hf : ∀ x y, Neat.enabled_edge Neat.initial_genome x y ->
     x ≠ fst (Innovation.get_split_node_id 0 1 Neat.initial_tracker) ∧
     y ≠ fst (Innovation.get_split_node_id 0 1 Neat.initial_tracker)).
  { intros x y Hxy. apply NeatGraphFacts.initial_genome_edges in Hxy. vm_compute. lia. }
  split; [exact NeatGraphFacts.initial_genome_acyclic|split; [reflexivity|]].
  exact (add_node_keeps_acyclic 0 Neat.initial_genome Neat.initial_tracker
           (Neat.mkConn 0 0 1 0 true) NeatGraphFacts.initial_genome_acyclic eq_refl Hf).
Defined.

Lemma deletions_keep_acyclic_witness :
  Neat.acyclic Neat.initial_genome ∧
  Neat.acyclic (snd (NeatOps.mut_del_connection 0 Neat.initial_genome)) ∧
  (∀ r g', NeatOps.mut_del_node 0 Neat.initial_genome = Some (r, g') -> Neat.acyclic g').
Proof.
  split; [exact NeatGraphFacts.initial_genome_acyclic|].
  exact (deletions_keep_acyclic 0 Neat.initial_genome NeatGraphFacts.initial_genome_acyclic).
Defined.

Lemma mutations_keep_endpoints_present_witness :
  NeatWfFacts.endpoints_present Neat.initial_genome ∧
  (∀ k, let '(_, g', _) := NeatOps.mut_add_node k Neat.initial_genome Neat.initial_tracker in
        NeatWfFacts.endpoints_present g').
Proof.
  assert (H : NeatWfFacts.endpoints_present Neat.initial_genome).
  { intros c Hc. simpl in Hc. apply list_elem_of_singleton in Hc as ->. simpl.
    split; repeat constructor. }
  split; [exact H|].
  exact (proj1 (proj2 (proj2 (mutations_keep_endpoints_present Neat.initial_genome
                                 Neat.initial_tracker H)))).
Defined.

Lemma mutate_weights_clamped_witness :
  (-1 <= 1)%Z ∧
  (let '(m, g') := NeatOps.mut_weights (fun _ => (false, 5%Z)) (-1) 1 Neat.initial_genome in
   m = Neat.has_connections Neat.initial_genome ∧ g'.(Neat.nodes) = Neat.initial_genome.(Neat.nodes) ∧
   (fun c => (Neat.conn_id c, Neat.endpoints c, Neat.enabled c)) <$> g'.(Neat.connections) =
   (fun c => (Neat.conn_id c, Neat.endpoints c, Neat.enabled c)) <$> Neat.initial_genome.(Neat.connections) ∧
   ∀ c, c ∈ g'.(Neat.connections) -> (-1 <= Neat.weight c <= 1)%Z).
Proof.
  split; [lia|].
  exact (mutate_weights_clamped (fun _ => (false, 5%Z)) (-1) 1 Neat.initial_genome ltac:(lia)).
Defined.

(* ------------------------------------------------------------------ *)
(** ** The innovation tracker *)

Module TrackerFacts.
Import Innovation.
Local Open Scope Z_scope.

(** The ids stored in [m] lie in [[lo, hi)] and no two keys share one. *)
Definition ids_ok (m : gmap (Z * Z) Z) (lo hi : Z) : Prop :=
  (∀ k v, m !! k = Some v -> lo <= v < hi) ∧
  (∀ k1 k2 v, m !! k1 = Some v -> m !! k2 = Some v -> k1 = k2).

Definition inv (nn nc : Z) (t : tracker) : Prop :=
  ids_ok t.(connection_ids) nc t.(next_connection_id) ∧
  ids_ok t.(split_node_ids) nn t.(next_node_id) ∧
  nc <= t.(next_connection_id) ∧ nn <= t.(next_node_id).

Lemma ids_ok_insert m lo hi k :
  ids_ok m lo hi -> lo <= hi -> m !! k = None -> ids_ok (<[k := hi]> m) lo (hi + 1).
Proof.
  intros [Hr Hi] Hlo Hk. split.
  - intros k' v H. apply lookup_insert_Some in H as [[_ <-]|[_ H]]; [lia|].
    specialize (Hr _ _ H). lia.
  - intros k1 k2 v H1 H2.
    apply lookup_insert_Some in H1 as [[<- <-]|[Hne1 H1]];
    apply lookup_insert_Some in H2 as [[<- E]|[Hne2 H2]]; try done.
    + specialize (Hr _ _ H2). lia.
    + subst. specialize (Hr _ _ H1). lia.
    + exact (Hi _ _ _ H1 H2).
Qed.

Lemma ids_ok_grow m lo hi hi' : ids_ok m lo hi -> hi <= hi' -> ids_ok m lo hi'.
Proof. intros [Hr Hi] Hh. split; [|done]. intros k v H. specialize (Hr _ _ H). lia. Qed.

Lemma step_inv nn nc o t : inv nn nc t -> inv nn nc (step o t).
Proof.
  intros (Hc & Hs & Hlc & Hln). destruct o as [a b|a b|n|n]; cbn [step].
  - unfold get_connection_id, normalize_key.
    destruct (connection_ids t !! (a, b)) eqn:E; simpl; [exact (conj Hc (conj Hs (conj Hlc Hln)))|].
    split; [by apply ids_ok_insert|]. split; [done|]. split; simpl; lia.
  - unfold get_split_node_id, normalize_key.
    destruct (split_node_ids t !! (a, b)) eqn:E; simpl; [exact (conj Hc (conj Hs (conj Hlc Hln)))|].
    split; [done|]. split; [by apply ids_ok_insert|]. split; simpl; lia.
  - unfold sync_node_counter. split; [done|].
    split; [apply (ids_ok_grow _ _ (next_node_id t)); [done|apply Z.le_max_l]|].
    split; [done|]. etrans; [exact Hln|apply Z.le_max_l].
  - unfold sync_connection_counter.
    split; [apply (ids_ok_grow _ _ (next_connection_id t)); [done|apply Z.le_max_l]|].
    split; [done|]. split; [|done]. etrans; [exact Hlc|apply Z.le_max_l].
Qed.

Lemma tracker_run_inv nn nc os t : inv nn nc t -> inv nn nc (run os t).
Proof.
  revert t. induction os as [|o os IH]; intros t H; [done|]. simpl. by apply IH, step_inv.
Qed.

Lemma reset_inv nn nc : inv nn nc (reset nn nc).
Proof.
  split; [|split; [|split; simpl; lia]]; split; simpl;
    [intros k v H|intros k1 k2 v H|intros k v H|intros k1 k2 v H];
    rewrite lookup_empty in H; discriminate.
Qed.
End TrackerFacts.

(** After [reset(next_node_id, next_connection_id)] and any sequence of
    tracker calls, every registered connection id lies between the reset
    value and the current [next_connection_id], and no two node pairs share
    a connection id; the same holds for split node ids and
    [next_node_id].  The counters never go below their reset values. *)
Theorem tracker_ids_distinct (nn nc : Z) (os : list Innovation.op) :
  let t := Innovation.run os (Innovation.reset nn nc) in
  (∀ k v, t.(Innovation.connection_ids) !! k = Some v ->
          (nc <= v < t.(Innovation.next_connection_id))%Z) ∧
  (∀ k1 k2 v, t.(Innovation.connection_ids) !! k1 = Some v ->
              t.(Innovation.connection_ids) !! k2 = Some v -> k1 = k2) ∧
  (∀ k v, t.(Innovation.split_node_ids) !! k = Some v ->
          (nn <= v < t.(Innovation.next_node_id))%Z) ∧
  (∀ k1 k2 v, t.(Innovation.split_node_ids) !! k1 = Some v ->
              t.(Innovation.split_node_ids) !! k2 = Some v -> k1 = k2).
Proof.
  destruct (TrackerFacts.tracker_run_inv nn nc os _ (TrackerFacts.reset_inv nn nc))
    as ([H1 H2] & [H3 H4] & _ & _).
  simpl. auto.
Qed.

(* ------------------------------------------------------------------ *)
(** ** Population order: sorting, insertion, best and worst *)

Module PopOrderFacts.
Import Individual Population Selector PopulationOps SortFacts PopFacts.

Lemma fitness_gather {G} o (l : list (individual G)) idx :
  fitness o <$> gather l idx = gather (fitness o <$> l) idx.
Proof.
  induction idx as [|i idx IH]; [done|].
  rewrite !gather_cons, list_lookup_fmap. destruct (l !! i); simpl; [|done].
  f_equal. exact IH.
Qed.

Lemma sort_sample_sorted {G} (p : population (G:=G)) l :
  Sorted (better_eq p.(ascending_order)) (fitness_values p.(ind_options) (sort_sample p l)).
Proof.
  unfold sort_sample, fitness_values. rewrite fitness_gather.
  rewrite gather_key; [|apply argsort_scores_bound].
  apply Sorted_map_key. apply argsort_scores_sorted.
Qed.

Lemma searchsorted_le v x : (searchsorted v x <= length v)%nat.
Proof. induction v as [|y v IH]; simpl; [lia|]. destruct (Z.leb x y); lia. Qed.

Lemma insert_sorted v x :
  Sorted Z.le v ->
  Sorted Z.le (take (searchsorted v x) v ++ x :: drop (searchsorted v x) v).
Proof.
  induction v as [|y v IH]; intros H; simpl; [by repeat constructor|].
  apply Sorted_inv in H as [Hs Hhd].
  destruct (Z.leb x y) eqn:E; simpl.
  - apply Z.leb_le in E. constructor; [by constructor|]. by constructor.
  - apply Z.leb_gt in E. constructor; [by apply IH|].
    destruct (searchsorted v x) as [|i] eqn:Es; simpl; [constructor; lia|].
    destruct v as [|z v]; [discriminate|]. simpl. constructor.
    by apply HdRel_inv in Hhd.
Qed.

Lemma Sorted_better_eq_true l : Sorted (better_eq true) l <-> Sorted Z.le l.
Proof. split; apply Sorted_weaken; unfold better_eq; auto. Qed.

Lemma better_eq_trans asc : Relations_1.Transitive (better_eq asc).
Proof. intros x y z. unfold better_eq. destruct asc; lia. Qed.

Lemma extrem_by_spec {G} asc (key : individual G -> Z) x l :
  extrem_by asc key x l ∈ x :: l ∧
  ∀ y, y ∈ x :: l -> better_eq asc (key (extrem_by asc key x l)) (key y).
Proof.
  revert x. induction l as [|y l IH]; intros x; simpl.
  - split; [by left|]. intros y Hy. apply elem_of_cons in Hy as [->|Hy]; [|by apply elem_of_nil in Hy].
    unfold better_eq. destruct asc; lia.
  - assert (Hc : ∀ (b : bool), (if b then extrem_by asc key y l else extrem_by asc key x l) =
                   extrem_by asc key (if b then y else x) l) by (intros []; done).
    destruct (if asc then Z.ltb (key y) (key x) else Z.ltb (key x) (key y)) eqn:E.
    + destruct (IH y) as [Hin Hb]. split.
      { apply elem_of_cons. right. done. }
      intros z Hz. apply elem_of_cons in Hz as [->|Hz]; [|by apply Hb].
      specialize (Hb y (proj2 (elem_of_cons _ _ _) (or_introl eq_refl))).
      unfold better_eq in *. destruct asc; [apply Z.ltb_lt in E|apply Z.ltb_lt in E]; lia.
    + destruct (IH x) as [Hin Hb]. split.
      { apply elem_of_cons in Hin as [->|Hin]; [by left|right; by right]. }
      intros z Hz. apply elem_of_cons in Hz as [->|Hz]; [apply Hb; by left|].
      apply elem_of_cons in Hz as [->|Hz]; [|apply Hb; by right].
      specialize (Hb x (proj2 (elem_of_cons _ _ _) (or_introl eq_refl))).
      unfold better_eq in *. destruct asc; [apply Z.ltb_ge in E|apply Z.ltb_ge in E]; lia.
Qed.

Lemma worst_scan_spec {G} (l : list (individual G)) k m w :
  worst_scan l (seq k m) = Some w ->
  ∃ i, (k <= i < k + m)%nat ∧ l !! (length l - 1 - i)%nat = Some w ∧ is_valid w = true ∧
       ∀ i' y, (k <= i' < i)%nat -> l !! (length l - 1 - i')%nat = Some y -> is_valid y = false.
Proof.
  revert k. induction m as [|m IH]; intros k H; [discriminate|].
  simpl in H. destruct (l !! (length l - 1 - k)%nat) as [x|] eqn:Ex.
  - destruct (is_valid x) eqn:Vx.
    + injection H as <-. exists k. split; [lia|]. split; [done|]. split; [done|]. lia.
    + destruct (IH (S k) H) as (i & Hi & Hw & Vw & Hb). exists i.
      split; [lia|]. split; [done|]. split; [done|].
      intros i' y Hi' Hy. destruct (decide (i' = k)) as [->|Hne].
      * rewrite Ex in Hy. by injection Hy as <-.
      * apply (Hb i'); [lia|done].
  - destruct (IH (S k) H) as (i & Hi & Hw & Vw & Hb). exists i.
    split; [lia|]. split; [done|]. split; [done|].
    intros i' y Hi' Hy. destruct (decide (i' = k)) as [->|Hne].
    + by rewrite Ex in Hy.
    + apply (Hb i'); [lia|done].
Qed.


Lemma sort_sorted_inv {G} (p : population (G:=G)) : sorted_inv (sort p).
Proof. intros _. exact (sort_sample_sorted p (pop p)). Qed.

Lemma update_order_sorted_inv {G} (p : population (G:=G)) :
  sorted_inv p -> sorted_inv (update_order p).
Proof. unfold update_order. destruct (keep_sorted p); [intros _; apply sort_sorted_inv|done]. Qed.

Lemma py_list_insert_perm {A} (l : list A) i x : py_list_insert l i x ≡ₚ l ++ [x].
Proof.
  unfold py_list_insert. rewrite <- Permutation_middle, take_drop.
  apply Permutation_cons_append.
Qed.

Lemma py_list_insert_nat {A} (l : list A) k x :
  (k <= length l)%nat -> py_list_insert l (Z.of_nat k) x = take k l ++ x :: drop k l.
Proof.
  intros Hk. unfold py_list_insert.
  replace (Z.of_nat k <? 0)%Z with false by (symmetry; apply Z.ltb_ge; lia).
  rewrite Z.min_l by lia. by rewrite Nat2Z.id.
Qed.

Lemma add_individual_unevaluated_flag {G} (x : individual G) p :
  is_evaluated x = false -> is_sorted (add_individual x p) = false.
Proof. intros H. unfold add_individual, is_valid. by rewrite H. Qed.

Lemma create_and_add_flag {G} (draw : nat -> G) k n p c :
  is_sorted p = false -> is_sorted (fst (create_and_add draw k n p c)) = false.
Proof.
  revert k p c. induction n as [|n IH]; intros k p c H; [done|].
  simpl. apply IH. by apply add_individual_unevaluated_flag.
Qed.

Lemma Sorted_StronglySorted_be asc l :
  Sorted (better_eq asc) l -> StronglySorted (better_eq asc) l.
Proof. apply Sorted_StronglySorted, better_eq_trans. Qed.

Lemma better_eq_refl' asc x : better_eq asc x x.
Proof. unfold better_eq. destruct asc; lia. Qed.

Lemma better_eq_negb asc x y : better_eq (negb asc) x y <-> better_eq asc y x.
Proof. unfold better_eq. destruct asc; simpl; lia. Qed.

(** [Samples.sel_pop] (fitnesses 1, 2, 3, ascending, flagged sorted) keeps
    the invariant. *)
Lemma sel_pop_sorted_inv : sorted_inv Samples.sel_pop.
Proof.
  intros _. vm_compute. repeat constructor; discriminate.
Qed.
End PopOrderFacts.

(** [create_and_add] starting from a population flagged unsorted: the
    newcomers are unevaluated, hence invalid, so [add_individual] appends
    them and the flag stays unset; direction and options are kept. *)
Lemma create_and_add_fields {G} (draw : nat -> G) k n (p : Population.population (G:=G)) c :
  Population.is_sorted p = false ->
  let p' := fst (Population.create_and_add draw k n p c) in
  Population.is_sorted p' = false ∧
  Population.ascending_order p' = Population.ascending_order p ∧
  Population.ind_options p' = Population.ind_options p.
Proof.
  revert k p c. induction n as [|n IH]; intros k p c Hs; simpl; [done|].
  set (x := fst (Individual.init (draw k) c)).
  destruct (PopFacts.add_unevaluated x p eq_refl) as [_ [_ [Ha Ho]]].
  destruct (IH (S k) (Population.add_individual x p) (c + 1)%Z) as [H1 [H2 H3]].
  { unfold Population.add_individual, Individual.is_valid. simpl. done. }
  exact (conj H1 (conj (eq_trans H2 Ha) (eq_trans H3 Ho))).
Qed.

(** Claim C8 (amended): [migrate()] computes [k = int(n * r)] for a
    population of size [n] and immigration rate [r], and adds [k] freshly
    created individuals (none when [k <= 0]) whose ids are the next [k]
    values of the id counter; nothing is removed, so the population becomes
    a permutation of the old one followed by the newcomers and its size
    grows to [n + k].  When [k > 0] the final [update_order()] re-sorts:
    with [keep_sorted] set the population is the old one plus the
    newcomers put in fitness order by [sort_sample], flagged sorted; with
    [keep_sorted] unset it is the old one followed by the newcomers,
    flagged unsorted. *)
Theorem migrate_appends_fresh {G} (draw : nat -> G) (p : Population.population (G:=G))
    (c : Individual.id_counter) :
  let k := Z.to_nat (Population.py_int
             (inject_Z (Z.of_nat (length (Population.pop p))) * Population.immigration_rate p)) in
  let '(p', c') := Population.migrate draw p c in
  Population.pop p' ≡ₚ Population.pop p ++ PopFacts.fresh draw 0 c k ∧
  length (Population.pop p') = (length (Population.pop p) + k)%nat ∧
  c' = (c + Z.of_nat k)%Z ∧
  ((0 < k)%nat ->
   (Population.keep_sorted p = true ->
      Population.pop p' =
        Population.sort_sample p (Population.pop p ++ PopFacts.fresh draw 0 c k) ∧
      Population.is_sorted p' = true ∧
      Sorted (Population.better_eq (Population.ascending_order p))
        (Population.fitness_values (Population.ind_options p) (Population.pop p'))) ∧
   (Population.keep_sorted p = false ->
      Population.pop p' = Population.pop p ++ PopFacts.fresh draw 0 c k ∧
      Population.is_sorted p' = false)).
Proof.
  cbv zeta. unfold Population.migrate.
  set (kz := Population.py_int _).
  destruct (Z.ltb_spec 0 kz) as [Hk|Hk].
  - set (p0 := Population.with_pop _ _ false).
    pose proof (PopFacts.create_and_add_spec draw 0 (Z.to_nat kz) p0 c) as Hc.
    pose proof (create_and_add_fields draw 0 (Z.to_nat kz) p0 c eq_refl) as Hf.
    destruct (Population.create_and_add draw 0 (Z.to_nat kz) p0 c) as [p2 c2].
    simpl in Hf. destruct Hc as [Hp [Hc Hks]]. destruct Hf as [Hs2 [Ha2 Ho2]].
    assert (Hperm : Population.pop (Population.update_order p2) ≡ₚ
                    Population.pop p ++ PopFacts.fresh draw 0 c (Z.to_nat kz)).
    { rewrite PopFacts.update_order_perm, Hp. done. }
    split; [done|split; [|split; [done|]]].
    { rewrite Hperm, length_app. unfold PopFacts.fresh. by rewrite length_map, length_seq. }
    intros _. unfold Population.update_order. rewrite Hks. simpl.
    split; intros Hkp; rewrite Hkp.
    + assert (Hss : Population.sort_sample p2 (Population.pop p2) =
                    Population.sort_sample p (Population.pop p ++ PopFacts.fresh draw 0 c (Z.to_nat kz))).
      { unfold Population.sort_sample. rewrite Ha2, Ho2, Hp. done. }
      unfold Population.sort, Population.with_pop. simpl. rewrite Hss.
      split; [done|split; [done|]].
      rewrite <- Hss, <- Ha2, <- Ho2. apply PopOrderFacts.sort_sample_sorted.
    + rewrite Hp. done.
  - replace (Z.to_nat kz) with 0%nat by lia. simpl.
    rewrite app_nil_r. split; [done|split; [lia|split; [lia|]]]. lia.
Qed.

(** [update(selection)]: the population becomes the selected individuals,
    each one generation older, sorted by fitness, with the [_sorted] flag
    set. *)
Theorem update_sorts_selection {G} (selection : list (Individual.individual G))
    (p : Population.population (G:=G)) :
  let p' := PopulationOps.update selection p in
  Population.pop p' ≡ₚ PopulationOps.new_generation <$> selection ∧
  Population.is_sorted p' = true ∧
  Population.ascending_order p' = Population.ascending_order p ∧
  Population.ind_options p' = Population.ind_options p ∧
  Sorted (Population.better_eq (Population.ascending_order p))
    (Population.fitness_values (Population.ind_options p) (Population.pop p')).
Proof.
  split; [apply PopFacts.sort_sample_perm|].
  split; [done|]. split; [done|]. split; [done|].
  exact (PopOrderFacts.sort_sample_sorted
    (Population.with_pop p (PopulationOps.new_generation <$> selection) (Population.is_sorted p))
    (PopulationOps.new_generation <$> selection)).
Qed.

(** [add_individual(individual)] in ascending order keeps the population a
    permutation of the old one plus the newcomer, and keeps the [_sorted]
    flag truthful: the insertion at [searchsorted] keeps the fitness values
    in order. *)
Theorem add_individual_ascending_keeps_sorted {G} (x : Individual.individual G)
    (p : Population.population (G:=G)) :
  Population.ascending_order p = true -> PopulationOps.sorted_inv p ->
  PopulationOps.sorted_inv (Population.add_individual x p) ∧
  Population.pop (Population.add_individual x p) ≡ₚ Population.pop p ++ [x].
Proof.
  intros Hasc Hinv. unfold Population.add_individual.
  destruct (Individual.is_valid x && Population.keep_sorted p) eqn:Hv.
  2:{ split; [intros H; discriminate H|done]. }
  destruct (Population.is_sorted p) eqn:Hs.
  2:{ split; [apply PopOrderFacts.sort_sorted_inv|apply PopFacts.sort_sample_perm]. }
  unfold Population.rank_of_fitness. rewrite Hasc.
  set (fv := Population.fitness_values (Population.ind_options p) (Population.pop p)).
  assert (Hlen : length fv = length (Population.pop p)) by apply length_fmap.
  pose proof (PopOrderFacts.searchsorted_le fv
    (Individual.fitness (Population.ind_options p) x)) as Hle.
  split; [|exact (PopOrderFacts.py_list_insert_perm _ _ _)].
  intros _. unfold PopulationOps.sorted_inv, Population.with_pop. simpl.
  rewrite PopOrderFacts.py_list_insert_nat by lia. rewrite Hasc. apply PopOrderFacts.Sorted_better_eq_true.
  unfold Population.fitness_values. rewrite fmap_app, fmap_cons, fmap_take, fmap_drop.
  apply PopOrderFacts.insert_sorted. apply PopOrderFacts.Sorted_better_eq_true.
  pose proof (Hinv Hs) as H. rewrite Hasc in H. exact H.
Qed.

(** [init_evaluation()]: with [complete_population] set, the population
    is filled up to [init_size] with fresh unevaluated individuals, one new
    id each; nothing is removed, and the [_sorted] flag stays truthful. *)
Theorem init_evaluation_fills {G} (draw : nat -> G) (complete_population : bool)
    (p : Population.population (G:=G)) (c : Individual.id_counter) :
  PopulationOps.sorted_inv p ->
  let '(p', c') := PopulationOps.init_evaluation draw complete_population p c in
  let n := if complete_population
           then (Population.init_size p - length (Population.pop p))%nat else 0%nat in
  Population.pop p' ≡ₚ Population.pop p ++ PopFacts.fresh draw 0 c n ∧
  c' = (c + Z.of_nat n)%Z ∧
  PopulationOps.sorted_inv p'.
Proof.
  intros Hinv. unfold PopulationOps.init_evaluation.
  destruct complete_population; simpl.
  2:{ unfold PopFacts.fresh. simpl. rewrite app_nil_r, Z.add_0_r. done. }
  case_bool_decide as Hlt; simpl.
  - pose proof (PopFacts.create_and_add_spec draw 0
      (Population.init_size p - length (Population.pop p))
      (Population.with_pop p (Population.pop p) false) c) as Hs.
    pose proof (PopOrderFacts.create_and_add_flag draw 0
      (Population.init_size p - length (Population.pop p))
      (Population.with_pop p (Population.pop p) false) c eq_refl) as Hf.
    destruct (Population.create_and_add _ _ _ _ _) as [p2 c2].
    destruct Hs as [Hp [Hc _]]. simpl in Hf.
    split; [rewrite PopFacts.update_order_perm, Hp; done|].
    split; [done|].
    apply PopOrderFacts.update_order_sorted_inv. intros H. congruence.
  - replace (Population.init_size p - length (Population.pop p))%nat with 0%nat by lia.
    unfold PopFacts.fresh. simpl. rewrite app_nil_r, Z.add_0_r. done.
Qed.

(** [get_best_ind()]: the individual returned belongs to the population
    and is at least as good as every member of it; when the population is
    not flagged sorted it is also valid. *)
Theorem get_best_ind_is_best {G} (p : Population.population (G:=G)) b :
  PopulationOps.sorted_inv p -> Selector.get_best_ind p = Some b ->
  b ∈ Population.pop p ∧
  (∀ y, y ∈ Population.pop p ->
     Population.better_eq (Population.ascending_order p)
       (Individual.fitness (Population.ind_options p) b)
       (Individual.fitness (Population.ind_options p) y)) ∧
  (Population.is_sorted p = false -> Individual.is_valid b = true).
Proof.
  intros Hinv. unfold Selector.get_best_ind.
  destruct (Population.is_sorted p) eqn:Hs.
  - intros Hb. specialize (Hinv Hs).
    destruct (Population.pop p) as [|x l] eqn:Hp; [discriminate|].
    injection Hb as <-. split; [by left|]. split; [|done].
    apply PopOrderFacts.Sorted_StronglySorted_be in Hinv.
    unfold Population.fitness_values in Hinv. rewrite fmap_cons in Hinv.
    apply StronglySorted_inv in Hinv as [_ Hf]. rewrite Forall_forall in Hf.
    intros y Hy. apply elem_of_cons in Hy as [->|Hy]; [apply PopOrderFacts.better_eq_refl'|].
    apply Hf. apply list_elem_of_fmap. by exists y.
  - destruct (Population.pop p) as [|x l] eqn:Hp; [discriminate|].
    destruct (Selector.extrem_by _ _ x l) as [] eqn:He.
    destruct (PopOrderFacts.extrem_by_spec (Population.ascending_order p)
      (Individual.fitness (Population.ind_options p)) x l) as [Hin Hbest].
    rewrite He in Hin, Hbest.
    destruct (Individual.is_valid _) eqn:Hv; [|discriminate]. intros Hb. injection Hb as <-.
    split; [done|]. split; [done|]. done.
Qed.

(** [get_worst_ind()]: the individual returned belongs to the population,
    is valid, and is no better than any valid member of it. *)
Theorem get_worst_ind_is_worst {G} (p : Population.population (G:=G)) w :
  PopulationOps.sorted_inv p -> PopulationOps.get_worst_ind p = Some w ->
  w ∈ Population.pop p ∧ Individual.is_valid w = true ∧
  (∀ y, y ∈ Population.pop p -> Individual.is_valid y = true ->
     Population.better_eq (Population.ascending_order p)
       (Individual.fitness (Population.ind_options p) y)
       (Individual.fitness (Population.ind_options p) w)).
Proof.
  intros Hinv. unfold PopulationOps.get_worst_ind.
  assert (Hfb : match Population.pop p with
    | [] => None
    | x :: l =>
        let worst := Selector.extrem_by (negb (Population.ascending_order p))
          (Individual.fitness (Population.ind_options p)) x l in
        if Individual.is_valid worst then Some worst else None
    end = Some w ->
    w ∈ Population.pop p ∧ Individual.is_valid w = true ∧
    (∀ y, y ∈ Population.pop p -> Individual.is_valid y = true ->
     Population.better_eq (Population.ascending_order p)
       (Individual.fitness (Population.ind_options p) y)
       (Individual.fitness (Population.ind_options p) w))).
  { destruct (Population.pop p) as [|x l]; [discriminate|]. simpl.
    destruct (PopOrderFacts.extrem_by_spec (negb (Population.ascending_order p))
      (Individual.fitness (Population.ind_options p)) x l) as [Hin Hbest].
    destruct (Individual.is_valid (Selector.extrem_by _ _ x l)) eqn:Hv; [|discriminate].
    intros Hw. injection Hw as <-. split; [done|]. split; [done|].
    intros y Hy _. apply PopOrderFacts.better_eq_negb. by apply Hbest. }
  destruct (Population.is_sorted p) eqn:Hs; [|exact Hfb].
  destruct (PopulationOps.worst_scan _ _) as [w'|] eqn:Hscan; [|exact Hfb].
  intros Hw. injection Hw as <-.
  destruct (PopOrderFacts.worst_scan_spec _ _ _ _ Hscan) as (i & Hi & Hwi & Vw & Hb).
  set (n := length (Population.pop p)) in *.
  split; [exact (list_elem_of_lookup_2 _ _ _ Hwi)|]. split; [done|].
  intros y Hy Vy. apply list_elem_of_lookup in Hy as [m Hm].
  pose proof (lookup_lt_Some _ _ _ Hm) as Hmn. fold n in Hmn.
  destruct (decide (m = n - 1 - i)%nat) as [->|Hne].
  { rewrite Hwi in Hm. injection Hm as <-. apply PopOrderFacts.better_eq_refl'. }
  destruct (decide (m < n - 1 - i)%nat) as [Hlt|Hge].
  - specialize (Hinv Hs). apply PopOrderFacts.Sorted_StronglySorted_be in Hinv.
    apply (PopFacts.StronglySorted_lookup _ _ m (n - 1 - i) _ _ Hinv); [| |done];
      unfold Population.fitness_values; rewrite list_lookup_fmap; [by rewrite Hm|by rewrite Hwi].
  - assert (Hinv' : Individual.is_valid y = false).
    { apply (Hb (n - 1 - m)%nat); [lia|]. by replace (n - 1 - (n - 1 - m))%nat with m by lia. }
    congruence.
Qed.

Lemma add_individual_ascending_keeps_sorted_witness :
  Population.ascending_order Samples.sel_pop = true ∧
  PopulationOps.sorted_inv Samples.sel_pop ∧
  PopulationOps.sorted_inv (Population.add_individual (Samples.evaluated_ind 3 2) Samples.sel_pop) ∧
  Population.pop (Population.add_individual (Samples.evaluated_ind 3 2) Samples.sel_pop) ≡ₚ
    Population.pop Samples.sel_pop ++ [Samples.evaluated_ind 3 2].
Proof.
  split; [reflexivity|]. split; [exact PopOrderFacts.sel_pop_sorted_inv|].
  exact (add_individual_ascending_keeps_sorted (Samples.evaluated_ind 3 2) Samples.sel_pop
           eq_refl PopOrderFacts.sel_pop_sorted_inv).
Defined.

Lemma init_evaluation_fills_witness :
  let p := Population.mkPop [Samples.evaluated_ind 0 1] true true true 3 0 0
             Samples.default_options in
  PopulationOps.sorted_inv p ∧
  (let '(p', c') := PopulationOps.init_evaluation (fun _ => tt) true p 10%Z in
   Population.pop p' ≡ₚ Population.pop p ++ PopFacts.fresh (fun _ => tt) 0 10%Z 2 ∧
   c' = 12%Z ∧
   PopulationOps.sorted_inv p').
Proof.
  intros p.
  assert (Hinv : PopulationOps.sorted_inv p).
  { intros _. vm_compute. repeat constructor. }
  split; [exact Hinv|].
  exact (init_evaluation_fills (fun _ => tt) true p 10%Z Hinv).
Defined.

Lemma get_best_ind_is_best_witness :
  PopulationOps.sorted_inv Samples.sentinel_pop ∧
  Selector.get_best_ind Samples.sentinel_pop = Some (Samples.evaluated_ind 0 5) ∧
  (Samples.evaluated_ind 0 5 ∈ Population.pop Samples.sentinel_pop ∧
   (∀ y, y ∈ Population.pop Samples.sentinel_pop ->
      Population.better_eq (Population.ascending_order Samples.sentinel_pop)
        (Individual.fitness (Population.ind_options Samples.sentinel_pop) (Samples.evaluated_ind 0 5))
        (Individual.fitness (Population.ind_options Samples.sentinel_pop) y)) ∧
   (Population.is_sorted Samples.sentinel_pop = false ->
      Individual.is_valid (Samples.evaluated_ind 0 5) = true)).
Proof.
  assert (Hinv : PopulationOps.sorted_inv Samples.sentinel_pop).
  { intros H. discriminate H. }
  split; [exact Hinv|]. split; [reflexivity|].
  exact (get_best_ind_is_best Samples.sentinel_pop (Samples.evaluated_ind 0 5) Hinv eq_refl).
Defined.

Lemma get_worst_ind_is_worst_witness :
  PopulationOps.sorted_inv Samples.sel_pop ∧
  PopulationOps.get_worst_ind Samples.sel_pop = Some (Samples.evaluated_ind 2 3) ∧
  (Samples.evaluated_ind 2 3 ∈ Population.pop Samples.sel_pop ∧
   Individual.is_valid (Samples.evaluated_ind 2 3) = true ∧
   (∀ y, y ∈ Population.pop Samples.sel_pop -> Individual.is_valid y = true ->
      Population.better_eq (Population.ascending_order Samples.sel_pop)
        (Individual.fitness (Population.ind_options Samples.sel_pop) y)
        (Individual.fitness (Population.ind_options Samples.sel_pop) (Samples.evaluated_ind 2 3)))).
Proof.
  split; [exact PopOrderFacts.sel_pop_sorted_inv|]. split; [reflexivity|].
  exact (get_worst_ind_is_worst Samples.sel_pop (Samples.evaluated_ind 2 3)
           PopOrderFacts.sel_pop_sorted_inv eq_refl).
Defined.

(* ------------------------------------------------------------------ *)
(** ** Single selection *)

Module SelectorFacts.
Import Individual Selector SelInv.

Lemma copy_is_valid {G} (g0 : G) x c : is_valid (fst (copy g0 x c)) = is_valid x.
Proof. reflexivity. Qed.

Lemma try_select_cases {G} pick (g0 : G) idx fuel t s sel c :
  let '(s', sel', c') := try_select pick g0 idx fuel t s sel c in
  (sel' = sel ∧ s' = s ∧ c' = c) ∨
  (∃ y, sel' = sel ++ [y] ∧ (allow_invalid s = false -> is_valid y = true) ∧
     (if allow_copies s then s' = s
      else s' = set_pre_selected s ({[ind_id y]} ∪ pre_selected_set s) ∧
           (ind_id y ∉ pre_selected_set s) ∧ c' = c)).
Proof.
  revert t. induction fuel as [|fuel IH]; intros t; cbn -[copy valid_single_selection]; [by left|].
  destruct (pick idx t) as [ind success].
  destruct success; cbn -[copy valid_single_selection]; [|apply IH].
  unfold valid_single_selection.
  destruct (negb (allow_invalid s) && negb (is_valid ind)) eqn:Hv; [apply IH|].
  assert (Hval : allow_invalid s = false -> is_valid ind = true).
  { intros Ha. rewrite Ha in Hv. destruct (is_valid ind); [done|discriminate]. }
  destruct (allow_copies s) eqn:Hc; cbn -[copy].
  - rewrite Hc. destruct (copy g0 ind c) as [y c1] eqn:Ey. cbn -[copy]. right. exists y.
    split; [done|]. split; [|done].
    intros Ha. pose proof (copy_is_valid g0 ind c) as Hcv. rewrite Ey in Hcv. simpl in Hcv.
    rewrite Hcv. by apply Hval.
  - case_bool_decide as Hin; [apply IH|]. cbn -[copy]. rewrite Hc.
    right. exists ind. split; [done|]. split; [done|]. done.
Qed.

Lemma single_selection_loop {G} pick (g0 : G) s0 c0 idxs m st :
  sel_inv s0 c0 m st ->
  sel_inv s0 c0 (m + length idxs)%nat
    (foldl (fun '(s, selected, c) idx => try_select pick g0 idx (tries s) 0 s selected c) st idxs).
Proof.
  revert m st. induction idxs as [|idx idxs IH]; intros m [[s sel] c] H; simpl.
  { by rewrite Nat.add_0_r. }
  rewrite <- Nat.add_succ_comm. apply IH.
  pose proof (try_select_cases pick g0 idx (tries s) 0 s sel c) as Hc.
  destruct (try_select _ _ _ _ _ _ _ _) as [[s' sel'] c'].
  destruct H as (Hai & Hac & Hmx & Hlen & Hv & Hnd).
  destruct Hc as [(-> & -> & ->)|(y & -> & Hy & Hs)].
  { unfold sel_inv. do 3 (split; [done|]). split; [lia|]. by split. }
  unfold sel_inv. rewrite Hac in Hs. destruct (allow_copies s0) eqn:Hc0.
  - subst s'. split; [done|]. split; [done|]. split; [done|].
    split; [rewrite length_app; simpl; lia|].
    split; [|discriminate].
    intros Ha. apply Forall_app. split; [by apply Hv|]. constructor; [|done].
    apply Hy. by rewrite Hai.
  - destruct Hs as (-> & Hnin & ->). split; [done|]. split; [done|]. split; [done|].
    split; [rewrite length_app; simpl; lia|].
    split.
    { intros Ha. apply Forall_app. split; [by apply Hv|]. constructor; [|done].
      apply Hy. by rewrite Hai. }
    intros _. destruct (Hnd eq_refl) as (Hnd' & Hin & Hsub & ->).
    split; [|split; [|split; [simpl; set_solver|done]]].
    + rewrite fmap_app. simpl. apply NoDup_app. split; [done|]. split; [|apply NoDup_singleton].
      intros i Hi Hi'. apply list_elem_of_singleton in Hi' as ->.
      apply list_elem_of_fmap in Hi as [z [Hz Hzin]].
      apply Hnin. rewrite Hz. by apply Hin.
    + intros z Hz. simpl. apply elem_of_app in Hz as [Hz|Hz].
      * destruct (Hin z Hz). set_solver.
      * apply list_elem_of_singleton in Hz as ->. split; [set_solver|]. set_solver.
Qed.

Lemma single_selection_inv {G} pick (g0 : G) s n c :
  sel_inv s c (Z.to_nat n) (single_selection pick g0 s n c).
Proof.
  unfold single_selection.
  rewrite <- (length_seq (Z.to_nat n) 0) at 1.
  apply (single_selection_loop pick g0 s c (seq 0 (Z.to_nat n)) 0 (s, [], c)).
  unfold sel_inv. do 3 (split; [done|]). split; [simpl; lia|].
  split; [constructor|]. intros _. split; [constructor|].
  split; [intros y Hy; by apply elem_of_nil in Hy|]. done.
Qed.

Lemma single_selection_zero_loop {G} pick (g0 : G) s idxs sel c :
  (max_single_select_fail s <= 0)%Z ->
  foldl (fun '(s, selected, c) idx => try_select pick g0 idx (tries s) 0 s selected c)
    (s, sel, c) idxs = (s, sel, c).
Proof.
  intros Hm. induction idxs as [|idx idxs IH]; [done|]. simpl.
  assert (Ht : tries s = 0%nat).
  { unfold tries. destruct (Z.eqb _ _); [done|]. lia. }
  rewrite Ht. exact IH.
Qed.
End SelectorFacts.

(** [single_selection]: at most [n_selected] individuals are selected;
    with [allow_invalid] off every selected individual is valid (a copy is
    as valid as its original); with [allow_copies] off the selected ids are
    pairwise distinct, were not in [_pre_selected_set] before the call, are
    all in it after, and no id is drawn by [copy]. *)
Theorem single_selection_respects_options {G} pick (g0 : G) (s : Selector.selector) n c :
  let '(s', sel, c') := Selector.single_selection pick g0 s n c in
  (length sel <= Z.to_nat n)%nat ∧
  (Selector.allow_invalid s = false -> Forall (fun y => Individual.is_valid y = true) sel) ∧
  (Selector.allow_copies s = false ->
     NoDup (Individual.ind_id <$> sel) ∧
     (∀ y, y ∈ sel -> Individual.ind_id y ∈ Selector.pre_selected_set s' ∧
                      Individual.ind_id y ∉ Selector.pre_selected_set s) ∧
     c' = c).
Proof.
  pose proof (SelectorFacts.single_selection_inv pick g0 s n c) as H.
  destruct (Selector.single_selection _ _ _ _ _) as [[s' sel] c'].
  destruct H as (_ & _ & _ & Hlen & Hv & Hnd).
  split; [done|]. split; [done|].
  intros Hc. destruct (Hnd Hc) as (Hd & Hin & _ & ->). done.
Qed.

(** [single_selection] with [max_single_select_fail <= 0], including the
    value [-1] that [_valid_init] warns about as unlimited: the [while]
    loop never runs, nothing is selected and the selector is unchanged. *)
Theorem single_selection_nonpositive_fail_selects_nothing {G} pick (g0 : G)
    (s : Selector.selector) n c :
  (Selector.max_single_select_fail s <= 0)%Z ->
  Selector.single_selection pick g0 s n c = (s, [], c).
Proof.
  intros Hm. unfold Selector.single_selection.
  by apply SelectorFacts.single_selection_zero_loop.
Qed.

Lemma single_selection_nonpositive_fail_selects_nothing_witness :
  (Selector.max_single_select_fail
     (Selector.mkSelector 1 false true true true (-1) ∅) <= 0)%Z ∧
  Selector.single_selection Samples.sel_pick tt
    (Selector.mkSelector 1 false true true true (-1) ∅) 3 0%Z =
  (Selector.mkSelector 1 false true true true (-1) ∅, [], 0%Z).
Proof.
  split; [simpl; lia|].
  apply single_selection_nonpositive_fail_selects_nothing. simpl. lia.
Defined.

(** [_get_selection] with [allow_copies] off: the selection it returns
    never holds two individuals with the same id, also after
    [best_preservation], and no id is drawn from the counter. *)
Theorem get_selection_distinct_ids {G} pick (g0 : G) (s : Selector.selector)
    (p : Population.population (G:=G)) c sel s' c' :
  Selector.allow_copies s = false ->
  Selector.get_selection pick g0 s p c = Some (sel, s', c') ->
  NoDup (Individual.ind_id <$> sel) ∧ c' = c.
Proof.
  intros Hc. unfold Selector.get_selection.
  pose proof (SelectorFacts.single_selection_inv pick g0 (Selector.init_selection s)
    (Selector.n_selected_of s p) c) as H.
  destruct (Selector.single_selection _ _ _ _ _) as [[s1 sel1] c1].
  destruct H as (_ & _ & _ & _ & _ & Hnd).
  assert (Hc0 : Selector.allow_copies (Selector.init_selection s) = false).
  { unfold Selector.init_selection. by rewrite Hc. }
  destruct (Hnd Hc0) as (Hd & Hin & _ & ->).
  destruct (Selector.keep_best s1).
  2:{ intros Hr. injection Hr as -> _ ->. done. }
  destruct (Selector.best_preservation s1 0 [sel1] p _) as [h|] eqn:Hb; [|discriminate].
  simpl. intros Hr. injection Hr as <- _ <-. split; [|done].
  unfold Selector.best_preservation in Hb.
  destruct (Selector.get_best_ind p) as [best|]; [|discriminate].
  simpl in Hb.
  revert Hb. destruct (Selector.is_best_included _ _ _) eqn:Hi; intros Hb.
  { injection Hb as <-. exact Hd. }
  assert (Hnot : Individual.ind_id best ∉ Individual.ind_id <$> sel1).
  { intros Hb'. apply list_elem_of_fmap in Hb' as [y [Hy Hyin]].
    unfold Selector.is_best_included in Hi.
    destruct (Selector.compute_selection_set s1).
    - apply bool_decide_eq_false in Hi. apply Hi. rewrite Hy. by apply Hin.
    - assert (He : existsb (fun z => Z.eqb (Individual.ind_id z) (Individual.ind_id best)) sel1 = true).
      { apply existsb_exists. exists y. split; [by apply list_elem_of_In|]. apply Z.eqb_eq. done. }
      unfold Selector.deref in Hi. simpl in Hi. congruence. }
  destruct (bool_decide _ && Selector.limit_size s1); cbn in Hb.
  - injection Hb as <-. exact Hd.
  - injection Hb as <-. unfold Selector.deref. simpl.
    rewrite fmap_app. apply NoDup_app. split; [done|]. split; [|apply NoDup_singleton].
    intros i Hi1 Hi2. apply list_elem_of_singleton in Hi2. simpl in Hi2. subst i. done.
Qed.

Lemma get_selection_distinct_ids_witness :
  let s := Selector.mkSelector (2 # 3) false false true true 10 ∅ in
  Selector.allow_copies s = false ∧
  (∃ sel s' c', Selector.get_selection Samples.sel_pick tt s Samples.sel_pop 0%Z = Some (sel, s', c') ∧
     NoDup (Individual.ind_id <$> sel) ∧ c' = 0%Z).
Proof.
  intros s. split; [reflexivity|].
  destruct (Selector.get_selection Samples.sel_pick tt s Samples.sel_pop 0%Z)
    as [[[sel s'] c']|] eqn:E.
  - exists sel, s', c'. split; [reflexivity|].
    exact (get_selection_distinct_ids Samples.sel_pick tt s Samples.sel_pop 0%Z sel s' c' eq_refl E).
  - vm_compute in E. discriminate E.
Defined.

(* ------------------------------------------------------------------ *)
(** ** The evaluation counter *)

Module EvalCountFacts.
Import Individual Population Evaluator EvalFacts.

Lemma eval_loop_count {G} (f : individual G -> outcome * Z) l n :
  Forall (no_other f) l ->
  eval_loop f l n =
    (eval_one f <$> l, (n + Z.of_nat (length (filter (fun x => is_evaluated x = false) l)))%Z, None).
Proof.
  revert n. induction l as [|x l IH]; intros n Hl; simpl.
  { by rewrite Z.add_0_r. }
  apply Forall_cons in Hl as [Hx Hl]. unfold eval_one at 1.
  destruct (is_evaluated x) eqn:Ev.
  - rewrite filter_cons_False by congruence. rewrite (IH n Hl). done.
  - rewrite filter_cons_True by done. simpl length.
    destruct (f x) as [[fit|msg|msg] t] eqn:Ef.
    + rewrite (IH (n + 1)%Z Hl). do 2 f_equal. lia.
    + rewrite (IH (n + 1)%Z Hl). do 2 f_equal. lia.
    + exfalso. exact (Hx Ev msg t Ef).
Qed.

Lemma eval_one_evaluated {G} (f : individual G -> outcome * Z) x :
  no_other f x -> is_evaluated (eval_one f x) = true.
Proof.
  intros Hx. unfold eval_one. destruct (is_evaluated x) eqn:Ev; [done|].
  destruct (f x) as [[fit|msg|msg] t] eqn:Ef; [done|done|].
  exfalso. exact (Hx Ev msg t Ef).
Qed.

Lemma eval_loop_all_evaluated {G} (f : individual G -> outcome * Z) l n :
  Forall (fun y => is_evaluated y = true) l -> eval_loop f l n = (l, n, None).
Proof.
  revert n. induction l as [|x l IH]; intros n Hl; [done|].
  apply Forall_cons in Hl as [Hx Hl]. simpl. rewrite Hx, (IH n Hl). done.
Qed.
End EvalCountFacts.

(** [_evaluate_pop]: when the callback raises nothing but
    [IgnoreException], the [_evaluated] counter ends at the number of
    individuals that were not evaluated before, every individual of the
    population is then evaluated, and a second call, with any callback,
    calls it on nobody and counts 0. *)
Theorem evaluate_pop_counts_unevaluated {G} (f : Individual.individual G -> Evaluator.outcome * Z)
    (p : Population.population (G:=G)) :
  Forall (EvalFacts.no_other f) (Population.pop p) ->
  let '(p', n, e) := Evaluator.evaluate_pop f p in
  e = None ∧
  n = Z.of_nat (length (filter (fun x => Individual.is_evaluated x = false) (Population.pop p))) ∧
  Forall (fun y => Individual.is_evaluated y = true) (Population.pop p') ∧
  ∀ f', let '(p'', n', e') := Evaluator.evaluate_pop f' p' in
        e' = None ∧ n' = 0%Z ∧ Population.pop p'' ≡ₚ Population.pop p'.
Proof.
  intros Hall. unfold Evaluator.evaluate_pop at 1.
  rewrite (EvalCountFacts.eval_loop_count f _ 0 Hall).
  assert (Hev : Forall (fun y => Individual.is_evaluated y = true)
     (Population.pop (Population.update_order
        (Population.with_pop p (Evaluator.eval_one f <$> Population.pop p) (Population.is_sorted p))))).
  { rewrite PopFacts.update_order_perm. apply Forall_fmap. eapply Forall_impl; [exact Hall|].
    intros x Hx. by apply EvalCountFacts.eval_one_evaluated. }
  split; [done|]. split; [lia|]. split; [exact Hev|].
  intros f'. unfold Evaluator.evaluate_pop.
  rewrite (EvalCountFacts.eval_loop_all_evaluated f' _ 0 Hev).
  split; [done|]. split; [done|]. rewrite PopFacts.update_order_perm. done.
Qed.

Lemma evaluate_pop_counts_unevaluated_witness :
  Forall (EvalFacts.no_other Samples.ignore_cb) (Population.pop Samples.eval_pop) ∧
  (let '(p', n, e) := Evaluator.evaluate_pop Samples.ignore_cb Samples.eval_pop in
   e = None ∧ n = 2%Z ∧
   Forall (fun y => Individual.is_evaluated y = true) (Population.pop p') ∧
   ∀ f', let '(p'', n', e') := Evaluator.evaluate_pop f' p' in
         e' = None ∧ n' = 0%Z ∧ Population.pop p'' ≡ₚ Population.pop p').
Proof.
  assert (H : Forall (EvalFacts.no_other Samples.ignore_cb) (Population.pop Samples.eval_pop)).
  { repeat constructor; intros _ msg t; vm_compute; discriminate. }
  split; [exact H|].
  exact (evaluate_pop_counts_unevaluated Samples.ignore_cb Samples.eval_pop H).
Defined.

(* ------------------------------------------------------------------ *)
(** ** Round trips of the permutation operators *)

Module PermuRoundTrip.
Import Permu.
Local Open Scope nat_scope.

Lemma length_slice_rt (a : list nat) lo hi : length (slice a lo hi) = min (hi - lo) (length a - lo).
Proof. unfold slice. rewrite length_take, length_drop. lia. Qed.

Lemma slice_assign_self (a : list nat) lo hi : slice_assign a lo hi (slice a lo hi) = a.
Proof.
  unfold slice_assign, slice.
  destruct (decide (hi <= lo)) as [Hle|Hlt].
  - replace (hi - lo) with 0 by lia. rewrite Nat.max_l by lia. simpl. apply take_drop.
  - rewrite Nat.max_r by lia.
    replace hi with (lo + (hi - lo)) at 2 by lia. rewrite <- drop_drop.
    rewrite take_drop. apply take_drop.
Qed.

Lemma slice_of_assign (a : list nat) lo hi v :
  length v = length (slice a lo hi) -> slice (slice_assign a lo hi v) lo hi = v.
Proof.
  rewrite length_slice_rt. intros Hv. unfold slice_assign, slice.
  destruct (decide (lo <= length a)) as [Hlo|Hlo].
  - rewrite drop_app_ge by (rewrite length_take; lia).
    rewrite length_take, Nat.min_l by lia. rewrite Nat.sub_diag, drop_0.
    destruct (decide (length v = hi - lo)) as [Heq|Hne].
    + rewrite <- Heq. apply take_app_length.
    + rewrite (drop_ge a (lo `max` hi)) by lia. rewrite app_nil_r. apply take_ge. lia.
  - assert (v = []) as -> by (apply length_zero_iff_nil; lia).
    rewrite (take_ge a lo) by lia. rewrite (drop_ge a (lo `max` hi)) by lia. simpl.
    rewrite app_nil_r, (drop_ge a lo) by lia. apply take_nil.
Qed.

Lemma slice_assign_twice (a : list nat) lo hi v w :
  length v = length (slice a lo hi) ->
  slice_assign (slice_assign a lo hi v) lo hi w = slice_assign a lo hi w.
Proof.
  rewrite length_slice_rt. intros Hv. unfold slice_assign.
  destruct (decide (lo <= length a)) as [Hlo|Hlo].
  - rewrite take_app_le by (rewrite length_take; lia). rewrite take_take, Nat.min_id.
    rewrite drop_app_ge by (rewrite length_take; lia).
    rewrite length_take, Nat.min_l by lia.
    destruct (decide (length v = lo `max` hi - lo)) as [Heq|Hne].
    + rewrite <- Heq, drop_app_length. done.
    + rewrite (drop_ge a (lo `max` hi)) by lia. rewrite app_nil_r, (drop_ge v) by lia. done.
  - assert (v = []) as -> by (apply length_zero_iff_nil; lia).
    rewrite (take_ge a lo) by lia. rewrite (drop_ge a (lo `max` hi)) by lia. simpl.
    rewrite app_nil_r, (take_ge a lo), (drop_ge a (lo `max` hi)) by lia. done.
Qed.

Lemma swap_spec (a : list nat) i j :
  swap a i j =
    if bool_decide (i < length a ∧ j < length a) then
      match a !! i, a !! j with
      | Some x1, Some x2 => Some (true, <[j:=x1]> (<[i:=x2]> a))
      | _, _ => None
      end
    else None.
Proof.
  unfold swap, py_set.
  destruct (decide (j < length a)) as [Hj|Hj].
  2:{ rewrite (lookup_ge_None_2 a j) by lia. simpl. case_bool_decide; [lia|done]. }
  destruct (lookup_lt_is_Some_2 a j Hj) as [x2 Hx2]. rewrite Hx2. simpl.
  destruct (decide (i < length a)) as [Hi|Hi].
  2:{ rewrite (lookup_ge_None_2 a i) by lia. simpl. case_bool_decide; [lia|done]. }
  destruct (lookup_lt_is_Some_2 a i Hi) as [x1 Hx1]. rewrite Hx1. simpl.
  rewrite (bool_decide_true (i < length a)) by lia. simpl.
  rewrite (bool_decide_true (j < length (<[i:=x2]> a))) by (rewrite length_insert; lia).
  rewrite bool_decide_true by lia. done.
Qed.
End PermuRoundTrip.

(** [PermuIndividual.swap(idx1, idx2)] succeeds exactly when both indices
    are in range (otherwise numpy raises [IndexError]), and swapping the
    same two positions of the result gives back the original array. *)
Theorem swap_round_trip (a : list nat) (i j : nat) :
  match Permu.swap a i j with
  | Some (_, a') => (i < length a ∧ j < length a)%nat ∧ Permu.swap a' i j = Some (true, a)
  | None => ¬ (i < length a ∧ j < length a)%nat
  end.
Proof.
  rewrite PermuRoundTrip.swap_spec.
  case_bool_decide as H; [|done]. destruct H as [Hi Hj].
  destruct (lookup_lt_is_Some_2 a i Hi) as [x1 Hx1].
  destruct (lookup_lt_is_Some_2 a j Hj) as [x2 Hx2]. rewrite Hx1, Hx2.
  split; [done|]. rewrite PermuRoundTrip.swap_spec.
  rewrite !length_insert. rewrite bool_decide_true by lia.
  destruct (decide (i = j)) as [<-|Hne].
  - rewrite Hx1 in Hx2. injection Hx2 as ->.
    rewrite list_insert_insert_eq, list_insert_id by done.
    rewrite Hx1. rewrite list_insert_insert_eq, list_insert_id by done. done.
  - rewrite list_lookup_insert_ne by done. rewrite list_lookup_insert_eq by lia.
    rewrite list_lookup_insert_eq by (rewrite length_insert; lia).
    f_equal. f_equal. apply list_eq. intros k.
    destruct (decide (k = j)) as [->|Hkj].
    { rewrite list_lookup_insert_eq by (rewrite !length_insert; lia). done. }
    rewrite list_lookup_insert_ne by done.
    destruct (decide (k = i)) as [->|Hki].
    { rewrite list_lookup_insert_eq by (rewrite !length_insert; lia). done. }
    rewrite !list_lookup_insert_ne by done. done.
Qed.

(** [PermuIndividual.reverse(idx1, idx2)] is an involution: reversing the
    same segment of the result gives back the original array, for any
    indices. *)
Theorem reverse_seg_involutive (a : list nat) (i j : nat) :
  Permu.reverse_seg (snd (Permu.reverse_seg a i j)) i j = (true, a).
Proof.
  unfold Permu.reverse_seg. simpl. f_equal.
  rewrite PermuRoundTrip.slice_of_assign by apply length_reverse.
  rewrite reverse_involutive.
  rewrite PermuRoundTrip.slice_assign_twice by apply length_reverse.
  apply PermuRoundTrip.slice_assign_self.
Qed.

(** [PermuIndividual.shuffle(idx1, idx2)] only changes the segment
    [idx1..idx2]: that segment of the result is the drawn permutation, and
    writing the original segment back gives back the original array. *)
Theorem shuffle_only_touches_segment (a : list nat) (i j : nat) (shuffled : list nat) :
  length shuffled = length (Permu.slice a i (j + 1)) ->
  let r := snd (Permu.shuffle a i j shuffled) in
  Permu.slice r i (j + 1) = shuffled ∧
  snd (Permu.shuffle r i j (Permu.slice a i (j + 1))) = a.
Proof.
  intros Hl r. subst r. unfold Permu.shuffle. simpl. split.
  - by apply PermuRoundTrip.slice_of_assign.
  - rewrite PermuRoundTrip.slice_assign_twice by done.
    apply PermuRoundTrip.slice_assign_self.
Qed.

Lemma shuffle_only_touches_segment_witness :
  length [3; 1; 2]%nat = length (Permu.slice [0; 1; 2; 3; 4]%nat 1 (3 + 1)) ∧
  (let r := snd (Permu.shuffle [0; 1; 2; 3; 4]%nat 1 3 [3; 1; 2]%nat) in
   Permu.slice r 1 (3 + 1) = [3; 1; 2]%nat ∧
   snd (Permu.shuffle r 1 3 (Permu.slice [0; 1; 2; 3; 4]%nat 1 (3 + 1))) = [0; 1; 2; 3; 4]%nat).
Proof.
  split; [reflexivity|].
  apply shuffle_only_touches_segment. reflexivity.
Defined.

(* ------------------------------------------------------------------ *)
(** ** Shared origin lists *)


(** [copy()] hands its own [_origin] list to the copy instead of a copy of
    it: the copy and the original share one origin list, so a later
    [has_mutate()] on the copy also appends ["mutation -1"] (the copy's id,
    see [from_data]) to the origin of the original. *)
Theorem copy_shares_origin {G} (g0 : G) (x : OriginStore.sind G) (c : Individual.id_counter)
    (h : OriginStore.store) :
  (OriginStore.s_origin x < length h)%nat ->
  let '(y, c1, h1) := OriginStore.s_copy g0 x c h in
  OriginStore.s_origin y = OriginStore.s_origin x ∧
  OriginStore.deref h1 (OriginStore.s_origin x) = OriginStore.deref h (OriginStore.s_origin x) ∧
  let '(_, _, h2) := OriginStore.s_has_mutate y c1 h1 in
  OriginStore.deref h2 (OriginStore.s_origin x) =
    OriginStore.deref h (OriginStore.s_origin x) ++ ["mutation -1"%string].
Proof.
  intros Hl. set (l := OriginStore.s_origin x).
  set (h1 := h ++ [OriginStore.deref h l]).
  set (h2 := h1 ++ [["void"%string]]).
  assert (E1 : OriginStore.deref h2 l = OriginStore.deref h l).
  { unfold h2, h1, OriginStore.deref.
    rewrite (lookup_app_l (h ++ [_]) _ l) by (rewrite length_app; simpl; lia).
    rewrite (lookup_app_l h _ l) by lia. done. }
  assert (L2 : (l < length h2)%nat).
  { unfold h2, h1. rewrite !length_app. simpl. lia. }
  split; [reflexivity|]. split; [exact E1|].
  change ("mutation -1"%string) with ("mutation " +:+ pretty (-1)%Z)%string.
  unfold OriginStore.s_has_mutate. simpl.
  change (OriginStore.s_origin x) with l. fold h1. fold h2. rewrite E1.
  unfold OriginStore.deref at 1. rewrite (list_lookup_insert_eq h2 l) by exact L2.
  reflexivity.
Qed.

Lemma copy_shares_origin_witness :
  (0 < length [["void"; "crossover"]%string])%nat ∧
  (let x := OriginStore.mkSInd 5 true (Individual.mkEval 3 0 "") 0 0 0 tt in
   let '(y, c1, h1) := OriginStore.s_copy tt x 10%Z [["void"; "crossover"]%string] in
   OriginStore.s_origin y = OriginStore.s_origin x ∧
   OriginStore.deref h1 (OriginStore.s_origin x) =
     OriginStore.deref [["void"; "crossover"]%string] (OriginStore.s_origin x) ∧
   let '(_, _, h2) := OriginStore.s_has_mutate y c1 h1 in
   OriginStore.deref h2 (OriginStore.s_origin x) =
     OriginStore.deref [["void"; "crossover"]%string] (OriginStore.s_origin x) ++ ["mutation -1"%string]).
Proof.
  split; [simpl; lia|].
  exact (copy_shares_origin tt (OriginStore.mkSInd 5 true (Individual.mkEval 3 0 "") 0 0 0 tt)
           10%Z [["void"; "crossover"]%string] ltac:(simpl; lia)).
Defined.
